(** * The pipelined Redis connection of lib/redis/redisconnection.cpp

    A shallow embedding of [RedisConnection]: the submission API, the
    Connector, the Writer Loop and the Reader Loop, all running on one
    strand.  A coroutine on a strand runs without interruption from one
    suspension point (a [Wait] on a condition flag, a [WriteOne], a
    [ReadOne], the asynchronous connect) to the next one; the model has one
    transition per such uninterrupted run, labelled with the result of the
    operation the coroutine was suspended in. *)

From stdpp Require Import gmap strings list pretty.

Local Open Scope string_scope.
Local Open Scope list_scope.

(** ** Data model *)

(** [Query] is a vector of [String]s. *)
Abbreviation Query := (list string) (only parsing).
Abbreviation Queries := (list (list string)) (only parsing).

(** Modelled from the spec: the [Reply] type is declared in
    redisconnection.hpp, which is not part of the sources at hand; section 3
    of the specification gives it as a tagged value. *)
#[warnings="-register-all"]
Inductive Reply :=
| SimpleString (s : string)
| ErrorReply (s : string)
| IntegerReply (z : Z)
| BulkString (s : string)
| NilReply
| ArrayReply (l : list Reply).

Abbreviation Replies := (list Reply) (only parsing).

(** What a [try] block of the source can tell apart: the forced unwind of
    the coroutine library, a [std::exception] (with its [what()]) and
    anything else, which only [catch (...)] catches.  [ReadOne],
    [WriteOne] and the connect end in a value or in one of these; which
    one is for the socket to decide. *)
Inductive Exn :=
| forced_unwind
| std_exception (what : string)
| unknown_exception.

#[global] Instance Exn_eq_dec : EqDecision Exn.
Proof. solve_decision. Defined.

(** What [std::promise::set_value] and [set_exception] throw when the
    shared state already holds a result; [std::future_error] derives from
    [std::exception]. *)
Definition future_error : Exn :=
  std_exception "std::future_error: Promise already satisfied".

(** The result of an operation a coroutine was suspended in. *)
Inductive Outcome (A : Type) :=
| Ret (a : A)
| Raise (e : Exn).
Arguments Ret {A} a.
Arguments Raise {A} e.

(** A [std::promise] is the handle of a shared state; the handle is
    modelled by the number of its shared state, the shared states live in
    the map [promises] of the state. *)
Abbreviation Promise := nat (only parsing).

Inductive Completion :=
| Value (r : Reply)
| Values (rs : Replies)
| Failed (e : Exn).

(** [WriteQueueItem], [ResponseAction] and [FutureResponseAction] are
    declared in redisconnection.hpp; their fields are those the aggregate
    initialisations of lines 98, 113, 130, 151, 291 and 369 name. *)
Module WriteQueueItem.
(** Four pointers, the submission API sets exactly one of them. *)
Record t := mk {
  FireAndForgetQuery : option Query;
  FireAndForgetQueries : option Queries;
  GetResultOfQuery : option (Query * Promise);
  GetResultsOfQueries : option (Queries * Promise)
}.
End WriteQueueItem.

Inductive ResponseAction := Ignore | Deliver | DeliverBulk.

#[global] Instance ResponseAction_eq_dec : EqDecision ResponseAction.
Proof. solve_decision. Defined.

(** [Amount] is a [size_t]: the entries are built from [item.size()] by
    list initialisation, which admits no narrowing. *)
Record FutureResponseAction := {
  Amount : N;
  Action : ResponseAction
}.

Definition size_t_wrap (x : N) : N := (x mod 2 ^ 64)%N.

(** [v.size()] of a vector. *)
Definition size {A} (v : list A) : N := N.of_nat (length v).

Inductive LogSeverity := LogNotice | LogInformation | LogCritical.

Record LogEntry := {
  severity : LogSeverity;
  facility : string;
  message : string
}.

(** ** Program points of the coroutines *)

Inductive ReaderPc :=
| RNotSpawned
| RWait                      (* in m_QueuedReads.Wait, line 191 *)
| RIgnore (i : N)            (* in ReadOne, line 201 *)
| RDeliver (i : N) (promise : Promise)     (* in ReadOne, line 223 *)
| RDeliverBulk (i : N) (promise : Promise) (replies : Replies)
                             (* in ReadOne, line 244 *)
| RTerminated (e : Exn).     (* an exception left ReadLoop *)

Inductive WriterPc :=
| WNotSpawned
| WWait                      (* in m_QueuedWrites.Wait, line 265 *)
| WFireAndForgetQuery (next : WriteQueueItem.t) (item : Query)
                             (* in WriteOne, line 275 *)
| WFireAndForgetQueries (next : WriteQueueItem.t) (item : Queries)
    (i : nat) (rest : Queries)
                             (* in WriteOne(item[i]), line 305; [rest] are
                                the queries after item[i] *)
| WGetResultOfQuery (next : WriteQueueItem.t) (item : Query * Promise)
                             (* in WriteOne, line 335 *)
| WGetResultsOfQueries (next : WriteQueueItem.t) (item : Queries * Promise)
    (rest : Queries)         (* in WriteOne, line 359 *)
| WTerminated (e : Exn).     (* an exception left WriteLoop *)

(** ** State *)

Record Config := {
  m_Host : string;
  m_Port : Z;
  m_Path : string;
  m_Password : string;
  m_DbIndex : Z
}.

(** The atomic flags, the connections and the two condition variables.
    Modelled from the spec: [AsioConditionVariable] is declared in
    base/io-engine.hpp; by section 4.5 it is one bit, [Set] and [Clear]
    write it and [Wait] returns once it is set. *)
Record Members := {
  m_Connecting : bool;
  m_Connected : bool;
  m_Started : bool;
  m_TcpConn : bool;          (* the pointer is set *)
  m_UnixConn : bool;
  m_QueuedWrites : bool;
  m_QueuedReads : bool
}.

Record Queues := {
  Writes : list WriteQueueItem.t;
  FutureResponseActions : list FutureResponseAction;
  ReplyPromises : list Promise;
  RepliesPromises : list Promise
}.

(** The coroutines spawned on the strand.  All [Connect] coroutines run
    the same code, so they are counted: those spawned and not yet run, and
    those suspended in the asynchronous connect. *)
Record Tasks := {
  reader : ReaderPc;
  writer : WriterPc;
  connSpawned : nat;
  connSuspended : nat
}.

(** What lies outside the object: the shared states of the promises, the
    log, and counters of what happened so far. *)
Record World := {
  promises : gmap nat Completion;
  signals : list (Promise * Completion);  (* calls of set_value, set_exception *)
  nextPromise : nat;
  log : list LogEntry;
  readLoopSpawns : nat;
  writeLoopSpawns : nat;
  connectSpawns : nat;
  connectExits : list (option Exn);
  nReadOne : nat;            (* calls of ReadOne *)
  nWriteOne : nat;           (* calls of WriteOne *)
  nSubmitted : N             (* queries handed to the submission API *)
}.

Record State := {
  conf : Config;
  mem : Members;
  m_Queues : Queues;
  tasks : Tasks;
  world : World
}.

(** *** Updates *)

Definition on_mem (f : Members -> Members) (s : State) : State :=
  {| conf := conf s; mem := f (mem s); m_Queues := m_Queues s;
     tasks := tasks s; world := world s |}.
Definition on_queues (f : Queues -> Queues) (s : State) : State :=
  {| conf := conf s; mem := mem s; m_Queues := f (m_Queues s);
     tasks := tasks s; world := world s |}.
Definition on_tasks (f : Tasks -> Tasks) (s : State) : State :=
  {| conf := conf s; mem := mem s; m_Queues := m_Queues s;
     tasks := f (tasks s); world := world s |}.
Definition on_world (f : World -> World) (s : State) : State :=
  {| conf := conf s; mem := mem s; m_Queues := m_Queues s;
     tasks := tasks s; world := f (world s) |}.

Definition set_Connecting (b : bool) : State -> State :=
  on_mem (fun m =>
    {| m_Connecting := b; m_Connected := m_Connected m;
       m_Started := m_Started m; m_TcpConn := m_TcpConn m;
       m_UnixConn := m_UnixConn m; m_QueuedWrites := m_QueuedWrites m;
       m_QueuedReads := m_QueuedReads m |}).
Definition set_Connected (b : bool) : State -> State :=
  on_mem (fun m =>
    {| m_Connecting := m_Connecting m; m_Connected := b;
       m_Started := m_Started m; m_TcpConn := m_TcpConn m;
       m_UnixConn := m_UnixConn m; m_QueuedWrites := m_QueuedWrites m;
       m_QueuedReads := m_QueuedReads m |}).
Definition set_Started (b : bool) : State -> State :=
  on_mem (fun m =>
    {| m_Connecting := m_Connecting m; m_Connected := m_Connected m;
       m_Started := b; m_TcpConn := m_TcpConn m;
       m_UnixConn := m_UnixConn m; m_QueuedWrites := m_QueuedWrites m;
       m_QueuedReads := m_QueuedReads m |}).
Definition set_TcpConn (b : bool) : State -> State :=
  on_mem (fun m =>
    {| m_Connecting := m_Connecting m; m_Connected := m_Connected m;
       m_Started := m_Started m; m_TcpConn := b;
       m_UnixConn := m_UnixConn m; m_QueuedWrites := m_QueuedWrites m;
       m_QueuedReads := m_QueuedReads m |}).
Definition set_UnixConn (b : bool) : State -> State :=
  on_mem (fun m =>
    {| m_Connecting := m_Connecting m; m_Connected := m_Connected m;
       m_Started := m_Started m; m_TcpConn := m_TcpConn m;
       m_UnixConn := b; m_QueuedWrites := m_QueuedWrites m;
       m_QueuedReads := m_QueuedReads m |}).
Definition set_QueuedWrites (b : bool) : State -> State :=
  on_mem (fun m =>
    {| m_Connecting := m_Connecting m; m_Connected := m_Connected m;
       m_Started := m_Started m; m_TcpConn := m_TcpConn m;
       m_UnixConn := m_UnixConn m; m_QueuedWrites := b;
       m_QueuedReads := m_QueuedReads m |}).
Definition set_QueuedReads (b : bool) : State -> State :=
  on_mem (fun m =>
    {| m_Connecting := m_Connecting m; m_Connected := m_Connected m;
       m_Started := m_Started m; m_TcpConn := m_TcpConn m;
       m_UnixConn := m_UnixConn m; m_QueuedWrites := m_QueuedWrites m;
       m_QueuedReads := b |}).

Definition set_Writes (ws : list WriteQueueItem.t) : State -> State :=
  on_queues (fun q =>
    {| Writes := ws; FutureResponseActions := FutureResponseActions q;
       ReplyPromises := ReplyPromises q;
       RepliesPromises := RepliesPromises q |}).
Definition set_FutureResponseActions (l : list FutureResponseAction)
  : State -> State :=
  on_queues (fun q =>
    {| Writes := Writes q; FutureResponseActions := l;
       ReplyPromises := ReplyPromises q;
       RepliesPromises := RepliesPromises q |}).
Definition set_ReplyPromises (l : list Promise) : State -> State :=
  on_queues (fun q =>
    {| Writes := Writes q; FutureResponseActions := FutureResponseActions q;
       ReplyPromises := l; RepliesPromises := RepliesPromises q |}).
Definition set_RepliesPromises (l : list Promise) : State -> State :=
  on_queues (fun q =>
    {| Writes := Writes q; FutureResponseActions := FutureResponseActions q;
       ReplyPromises := ReplyPromises q; RepliesPromises := l |}).

Definition set_reader (pc : ReaderPc) : State -> State :=
  on_tasks (fun t =>
    {| reader := pc; writer := writer t; connSpawned := connSpawned t;
       connSuspended := connSuspended t |}).
Definition set_writer (pc : WriterPc) : State -> State :=
  on_tasks (fun t =>
    {| reader := reader t; writer := pc; connSpawned := connSpawned t;
       connSuspended := connSuspended t |}).
Definition set_connectors (spawned suspended : nat) : State -> State :=
  on_tasks (fun t =>
    {| reader := reader t; writer := writer t; connSpawned := spawned;
       connSuspended := suspended |}).

Definition on_promises (f : gmap nat Completion -> gmap nat Completion)
  : State -> State :=
  on_world (fun w =>
    {| promises := f (promises w); signals := signals w; nextPromise := nextPromise w;
       log := log w; readLoopSpawns := readLoopSpawns w;
       writeLoopSpawns := writeLoopSpawns w;
       connectSpawns := connectSpawns w; connectExits := connectExits w;
       nReadOne := nReadOne w; nWriteOne := nWriteOne w;
       nSubmitted := nSubmitted w |}).
Definition record_signal (p : Promise) (c : Completion) : State -> State :=
  on_world (fun w =>
    {| promises := promises w; signals := signals w ++ [(p, c)];
       nextPromise := nextPromise w;
       log := log w; readLoopSpawns := readLoopSpawns w;
       writeLoopSpawns := writeLoopSpawns w;
       connectSpawns := connectSpawns w; connectExits := connectExits w;
       nReadOne := nReadOne w; nWriteOne := nWriteOne w;
       nSubmitted := nSubmitted w |}).
Definition set_nextPromise (n : nat) : State -> State :=
  on_world (fun w =>
    {| promises := promises w; signals := signals w; nextPromise := n;
       log := log w; readLoopSpawns := readLoopSpawns w;
       writeLoopSpawns := writeLoopSpawns w;
       connectSpawns := connectSpawns w; connectExits := connectExits w;
       nReadOne := nReadOne w; nWriteOne := nWriteOne w;
       nSubmitted := nSubmitted w |}).
Definition on_log (f : list LogEntry -> list LogEntry) : State -> State :=
  on_world (fun w =>
    {| promises := promises w; signals := signals w; nextPromise := nextPromise w;
       log := f (log w); readLoopSpawns := readLoopSpawns w;
       writeLoopSpawns := writeLoopSpawns w;
       connectSpawns := connectSpawns w; connectExits := connectExits w;
       nReadOne := nReadOne w; nWriteOne := nWriteOne w;
       nSubmitted := nSubmitted w |}).
Definition count_loop_spawns : State -> State :=
  on_world (fun w =>
    {| promises := promises w; signals := signals w; nextPromise := nextPromise w;
       log := log w; readLoopSpawns := S (readLoopSpawns w);
       writeLoopSpawns := S (writeLoopSpawns w);
       connectSpawns := connectSpawns w; connectExits := connectExits w;
       nReadOne := nReadOne w; nWriteOne := nWriteOne w;
       nSubmitted := nSubmitted w |}).
Definition count_connect_spawn : State -> State :=
  on_world (fun w =>
    {| promises := promises w; signals := signals w; nextPromise := nextPromise w;
       log := log w; readLoopSpawns := readLoopSpawns w;
       writeLoopSpawns := writeLoopSpawns w;
       connectSpawns := S (connectSpawns w);
       connectExits := connectExits w;
       nReadOne := nReadOne w; nWriteOne := nWriteOne w;
       nSubmitted := nSubmitted w |}).
Definition record_connect_exit (e : option Exn) : State -> State :=
  on_world (fun w =>
    {| promises := promises w; signals := signals w; nextPromise := nextPromise w;
       log := log w; readLoopSpawns := readLoopSpawns w;
       writeLoopSpawns := writeLoopSpawns w;
       connectSpawns := connectSpawns w;
       connectExits := connectExits w ++ [e];
       nReadOne := nReadOne w; nWriteOne := nWriteOne w;
       nSubmitted := nSubmitted w |}).
Definition count_ReadOne : State -> State :=
  on_world (fun w =>
    {| promises := promises w; signals := signals w; nextPromise := nextPromise w;
       log := log w; readLoopSpawns := readLoopSpawns w;
       writeLoopSpawns := writeLoopSpawns w;
       connectSpawns := connectSpawns w; connectExits := connectExits w;
       nReadOne := S (nReadOne w); nWriteOne := nWriteOne w;
       nSubmitted := nSubmitted w |}).
Definition count_WriteOne : State -> State :=
  on_world (fun w =>
    {| promises := promises w; signals := signals w; nextPromise := nextPromise w;
       log := log w; readLoopSpawns := readLoopSpawns w;
       writeLoopSpawns := writeLoopSpawns w;
       connectSpawns := connectSpawns w; connectExits := connectExits w;
       nReadOne := nReadOne w; nWriteOne := S (nWriteOne w);
       nSubmitted := nSubmitted w |}).
Definition count_submitted (n : N) : State -> State :=
  on_world (fun w =>
    {| promises := promises w; signals := signals w; nextPromise := nextPromise w;
       log := log w; readLoopSpawns := readLoopSpawns w;
       writeLoopSpawns := writeLoopSpawns w;
       connectSpawns := connectSpawns w; connectExits := connectExits w;
       nReadOne := nReadOne w; nWriteOne := nWriteOne w;
       nSubmitted := (nSubmitted w + n)%N |}).

(** [Log(severity, facility, message)] *)
Definition Log (sev : LogSeverity) (fac msg : string) : State -> State :=
  on_log (fun l => l ++ [{| severity := sev; facility := fac; message := msg |}]).

(** ** Construction *)

Definition RedisConnection (host : string) (port : Z) (path password : string)
    (db : Z) : State :=
  {| conf := {| m_Host := host; m_Port := port; m_Path := path;
                m_Password := password; m_DbIndex := db |};
     mem := {| m_Connecting := false; m_Connected := false;
               m_Started := false; m_TcpConn := false; m_UnixConn := false;
               m_QueuedWrites := false; m_QueuedReads := false |};
     m_Queues := {| Writes := []; FutureResponseActions := [];
                    ReplyPromises := []; RepliesPromises := [] |};
     tasks := {| reader := RNotSpawned; writer := WNotSpawned;
                 connSpawned := 0; connSuspended := 0 |};
     world := {| promises := ∅; signals := []; nextPromise := 0; log := [];
                 readLoopSpawns := 0; writeLoopSpawns := 0;
                 connectSpawns := 0; connectExits := [];
                 nReadOne := 0; nWriteOne := 0; nSubmitted := 0 |} |}.

(** ** Helpers of the source *)

(** [IsConnected] *)
Definition IsConnected (s : State) : bool := m_Connected (mem s).

(** [LogQuery] appends the first seven arguments of the query to the
    message, then an ellipsis; [i] is its counter. *)
Fixpoint LogQuery_from (i : nat) (query : Query) : string :=
  match query with
  | [] => ""
  | arg :: rest =>
      if decide (S i = 8) then " ..."
      else " '" +:+ arg +:+ "'" +:+ LogQuery_from (S i) rest
  end.

Definition LogQuery (query : Query) : string := LogQuery_from 0 query.

(** [m_Path.IsEmpty()] *)
Definition Path_IsEmpty (s : State) : bool :=
  if decide (m_Path (conf s) = "") then true else false.

(** The condition [empty() || back().Action != action] and its two
    branches, lines 290-294, 322-326 and 345-349: a new entry at the back,
    or the amount of the last entry increased. *)
Definition append_or_extend (amount : N) (action : ResponseAction)
    (q : list FutureResponseAction) : list FutureResponseAction :=
  match last q with
  | None => q ++ [{| Amount := amount; Action := action |}]
  | Some b =>
      if decide (Action b = action)
      then removelast q ++
           [{| Amount := size_t_wrap (Amount b + amount); Action := Action b |}]
      else q ++ [{| Amount := amount; Action := action |}]
  end.

Definition extend_FutureResponseActions (amount : N) (action : ResponseAction)
    (s : State) : State :=
  set_FutureResponseActions
    (append_or_extend amount action (FutureResponseActions (m_Queues s))) s.

(** [promise.set_value] and [promise.set_exception]: the shared state takes
    the result when it has none, otherwise the call throws
    [std::future_error]. *)
Inductive SetResult :=
| Satisfied (s : State)
| AlreadySatisfied (s : State).

Definition set_result (p : Promise) (c : Completion) (s : State) : SetResult :=
  match promises (world s) !! p with
  | None => Satisfied (on_promises (insert p c) (record_signal p c s))
  | Some _ => AlreadySatisfied (record_signal p c s)
  end.

(** ** Submission API

    Each function logs, builds the item and posts the handler that
    enqueues it and sets the flag; the handler runs on the strand.  The
    awaiting variants then block their own thread on the future, which is
    the shared state [promises !! p] of the promise they created. *)

Definition post_write (item : WriteQueueItem.t) (s : State) : State :=
  set_QueuedWrites true (set_Writes (Writes (m_Queues s) ++ [item]) s).

Definition log_queries (msg : string) (queries : Queries) (s : State) : State :=
  foldl (fun s query => Log LogNotice "RedisWriter" (msg +:+ LogQuery query) s)
        s queries.

Definition FireAndForgetQuery (query : Query) (s : State) : State :=
  let s := Log LogNotice "RedisWriter"
               ("Firing and forgetting query:" +:+ LogQuery query) s in
  post_write (WriteQueueItem.mk (Some query) None None None)
             (count_submitted 1 s).

Definition FireAndForgetQueries (queries : Queries) (s : State) : State :=
  let s := log_queries "Firing and forgetting query:" queries s in
  post_write (WriteQueueItem.mk None (Some queries) None None)
             (count_submitted (size queries) s).

Definition GetResultOfQuery (query : Query) (s : State) : State :=
  let s := Log LogNotice "RedisWriter"
               ("Executing query:" +:+ LogQuery query) s in
  let promise := nextPromise (world s) in
  post_write (WriteQueueItem.mk None None (Some (query, promise)) None)
             (count_submitted 1 (set_nextPromise (S promise) s)).

Definition GetResultsOfQueries (queries : Queries) (s : State) : State :=
  let s := log_queries "Executing query:" queries s in
  let promise := nextPromise (world s) in
  post_write (WriteQueueItem.mk None None None (Some (queries, promise)))
             (count_submitted (size queries) (set_nextPromise (S promise) s)).

(** ** Start and the Connector *)

(** [Start], lines 53-67: each [exchange(true)] sets its flag and tells
    whether it was set.  A loop just spawned is in its first [Wait]; a
    [Connect] just spawned has still to run. *)
Definition Start (s : State) : State :=
  let s :=
    if m_Started (mem s) then s
    else count_loop_spawns
           (set_writer WWait (set_reader RWait (set_Started true s))) in
  if m_Connecting (mem s) then s
  else count_connect_spawn
         (set_connectors (S (connSpawned (tasks s))) (connSuspended (tasks s))
            (set_Connecting true s)).

(** [Connect] up to its suspension in the asynchronous connect. *)
Definition Connect_begin (s : State) : State :=
  match connSpawned (tasks s) with
  | O => s
  | S n =>
      Log LogInformation "RedisWriter"
          "Trying to connect to Redis server (async)"
          (set_connectors n (S (connSuspended (tasks s))) s)
  end.

(** The [Defer] of line 162, run on every way out of [Connect]. *)
Definition notConnecting (s : State) : State :=
  set_Connecting (m_Connected (mem s)) s.

(** [Connect] from the result of the asynchronous connect on; there is no
    [catch (...)], so an exception that is not a [std::exception] leaves
    the function. *)
Definition Connect_done (r : Outcome unit) (s : State) : State :=
  match connSuspended (tasks s) with
  | O => s
  | S n =>
      let s := set_connectors (connSpawned (tasks s)) n s in
      match r with
      | Ret _ =>
          let s := if Path_IsEmpty s then set_TcpConn true s
                   else set_UnixConn true s in
          let s := set_Connected true s in
          let s := Log LogInformation "RedisWriter"
                       "Connected to Redis server" s in
          record_connect_exit None (notConnecting s)
      | Raise forced_unwind =>
          record_connect_exit (Some forced_unwind) (notConnecting s)
      | Raise (std_exception what) =>
          let s := Log LogCritical "RedisWriter"
                       ("Cannot connect to " +:+ m_Host (conf s) +:+ ":" +:+
                        pretty (m_Port (conf s)) +:+ ": " +:+ what) s in
          record_connect_exit None (notConnecting s)
      | Raise unknown_exception =>
          record_connect_exit (Some unknown_exception) (notConnecting s)
      end
  end.

(** ** The loops

    How far a coroutine gets in one uninterrupted run. *)
Inductive Flow :=
| Suspend (s : State)        (* suspended, its program point is in [s] *)
| Next (s : State)           (* back at the test of the [while] loop *)
| Throw (e : Exn) (s : State) (* an exception leaves the loop *)
| Undefined.                 (* front() of an empty queue, item[i] out of range *)

(** *** ReadLoop *)

Definition suspend_reader (pc : ReaderPc) (s : State) : State :=
  count_ReadOne (set_reader pc s).

(** Lines 198-214: the [try] encloses the whole [for] loop, the handlers
    [continue] the [while] loop. *)
Definition read_Ignore (i : N) (s : State) : Flow :=
  if decide (i = 0%N) then Next s
  else Suspend (suspend_reader (RIgnore i) s).

Definition read_Ignore_done (i : N) (r : Outcome Reply) (s : State) : Flow :=
  match r with
  | Ret _ => read_Ignore (i - 1) s
  | Raise forced_unwind => Throw forced_unwind s
  | Raise (std_exception what) =>
      Next (Log LogCritical "RedisWriter"
              ("Error during receiving the response to a query which has been fired and forgotten: "
               +:+ what) s)
  | Raise unknown_exception =>
      Next (Log LogCritical "RedisWriter"
              "Error during receiving the response to a query which has been fired and forgotten"
              s)
  end.

(** Lines 215-233: the [try] is inside the [for] loop, the handler
    [continue]s the [for] loop. *)
Definition read_Deliver (i : N) (s : State) : Flow :=
  if decide (i = 0%N) then Next s
  else match ReplyPromises (m_Queues s) with
       | [] => Undefined
       | promise :: rest =>
           Suspend (suspend_reader (RDeliver i promise)
                      (set_ReplyPromises rest s))
       end.

Definition read_Deliver_done (i : N) (promise : Promise) (r : Outcome Reply)
    (s : State) : Flow :=
  match r with
  | Ret reply =>
      match set_result promise (Value reply) s with
      | Satisfied s' => read_Deliver (i - 1) s'
      | AlreadySatisfied s' => Throw future_error s'
      end
  | Raise forced_unwind => Throw forced_unwind s
  | Raise e =>
      match set_result promise (Failed e) s with
      | Satisfied s' => read_Deliver (i - 1) s'
      | AlreadySatisfied s' => Throw future_error s'
      end
  end.

(** Lines 234-254: the handler inside the [for] loop sets the exception and
    [continue]s the [for] loop; [set_value] follows the loop
    unconditionally, outside any [try].  ([replies.reserve] allocates and
    is left out.) *)
Definition read_DeliverBulk (i : N) (promise : Promise) (replies : Replies)
    (s : State) : Flow :=
  if decide (i = 0%N)
  then match set_result promise (Values replies) s with
       | Satisfied s' => Next s'
       | AlreadySatisfied s' => Throw future_error s'
       end
  else Suspend (suspend_reader (RDeliverBulk i promise replies) s).

Definition read_DeliverBulk_done (i : N) (promise : Promise)
    (replies : Replies) (r : Outcome Reply) (s : State) : Flow :=
  match r with
  | Ret reply => read_DeliverBulk (i - 1) promise (replies ++ [reply]) s
  | Raise forced_unwind => Throw forced_unwind s
  | Raise e =>
      match set_result promise (Failed e) s with
      | Satisfied s' => read_DeliverBulk (i - 1) promise replies s'
      | AlreadySatisfied s' => Throw future_error s'
      end
  end.

(** The [switch] of line 197 on the entry just popped. *)
Definition ReadLoop_item (item : FutureResponseAction) (s : State) : Flow :=
  match Action item with
  | Ignore => read_Ignore (Amount item) s
  | Deliver => read_Deliver (Amount item) s
  | DeliverBulk =>
      match RepliesPromises (m_Queues s) with
      | [] => Undefined
      | promise :: rest =>
          read_DeliverBulk (Amount item) promise []
            (set_RepliesPromises rest s)
      end
  end.

(** The [while] loop of line 193 from its test on, [q] being the queue of
    entries; when the queue is empty the flag is cleared and the coroutine
    is back in [Wait]. *)
Fixpoint ReadLoop_while (q : list FutureResponseAction) (s : State) : Flow :=
  match q with
  | [] => Suspend (set_reader RWait (set_QueuedReads false s))
  | item :: q' =>
      match ReadLoop_item item (set_FutureResponseActions q' s) with
      | Next s' => ReadLoop_while q' s'
      | fl => fl
      end
  end.

Definition reader_continue (fl : Flow) : Flow :=
  match fl with
  | Next s => ReadLoop_while (FutureResponseActions (m_Queues s)) s
  | _ => fl
  end.

Definition reader_settle (fl : Flow) : option State :=
  match reader_continue fl with
  | Suspend s | Next s => Some s
  | Throw e s => Some (set_reader (RTerminated e) s)
  | Undefined => None
  end.

(** The Reader woken in [Wait]: [Wait] returns only when the flag is set. *)
Definition ReadLoop_wake (r : Outcome unit) (s : State) : option State :=
  match reader (tasks s) with
  | RWait =>
      match r with
      | Ret _ => if m_QueuedReads (mem s) then reader_settle (Next s)
                 else Some s
      | Raise e => reader_settle (Throw e s)
      end
  | _ => Some s
  end.

(** The Reader resumed with the result of [ReadOne]. *)
Definition ReadLoop_read (r : Outcome Reply) (s : State) : option State :=
  match reader (tasks s) with
  | RIgnore i => reader_settle (read_Ignore_done i r s)
  | RDeliver i promise => reader_settle (read_Deliver_done i promise r s)
  | RDeliverBulk i promise replies =>
      reader_settle (read_DeliverBulk_done i promise replies r s)
  | _ => Some s
  end.

(** *** WriteLoop

    The four [if] statements of the loop body follow one another; a
    [continue] in a handler skips the rest of the body. *)

Definition suspend_writer (pc : WriterPc) (s : State) : State :=
  count_WriteOne (set_writer pc s).

(** Lines 354-372. *)
Definition write_GetResultsOfQueries_loop (next : WriteQueueItem.t)
    (item : Queries * Promise) (todo : Queries) (s : State) : Flow :=
  match todo with
  | [] =>
      let s := set_RepliesPromises (RepliesPromises (m_Queues s) ++ [item.2]) s in
      let s := set_FutureResponseActions
                 (FutureResponseActions (m_Queues s) ++
                  [{| Amount := size item.1; Action := DeliverBulk |}]) s in
      Next (set_QueuedReads true s)
  | _ :: rest => Suspend (suspend_writer (WGetResultsOfQueries next item rest) s)
  end.

Definition write_GetResultsOfQueries_done (next : WriteQueueItem.t)
    (item : Queries * Promise) (rest : Queries) (r : Outcome unit)
    (s : State) : Flow :=
  match r with
  | Ret _ => write_GetResultsOfQueries_loop next item rest s
  | Raise forced_unwind => Throw forced_unwind s
  | Raise e =>
      match set_result item.2 (Failed e) s with
      | Satisfied s' => Next s'
      | AlreadySatisfied s' => Throw future_error s'
      end
  end.

Definition write_GetResultsOfQueries (next : WriteQueueItem.t) (s : State)
  : Flow :=
  match WriteQueueItem.GetResultsOfQueries next with
  | Some item => write_GetResultsOfQueries_loop next item item.1 s
  | None => Next s
  end.

(** Lines 331-352. *)
Definition write_GetResultOfQuery_done (next : WriteQueueItem.t)
    (item : Query * Promise) (r : Outcome unit) (s : State) : Flow :=
  match r with
  | Ret _ =>
      let s := set_ReplyPromises (ReplyPromises (m_Queues s) ++ [item.2]) s in
      let s := extend_FutureResponseActions 1 Deliver s in
      write_GetResultsOfQueries next (set_QueuedReads true s)
  | Raise forced_unwind => Throw forced_unwind s
  | Raise e =>
      match set_result item.2 (Failed e) s with
      | Satisfied s' => Next s'
      | AlreadySatisfied s' => Throw future_error s'
      end
  end.

Definition write_GetResultOfQuery (next : WriteQueueItem.t) (s : State)
  : Flow :=
  match WriteQueueItem.GetResultOfQuery next with
  | Some item => Suspend (suspend_writer (WGetResultOfQuery next item) s)
  | None => write_GetResultsOfQueries next s
  end.

(** Lines 299-329: [i] counts the queries sent and serves the log message
    only; after the loop the entry grows by [item.size()]. *)
Definition write_FireAndForgetQueries_loop (next : WriteQueueItem.t)
    (item : Queries) (i : nat) (todo : Queries) (s : State) : Flow :=
  match todo with
  | [] =>
      let s := extend_FutureResponseActions (size item) Ignore s in
      write_GetResultOfQuery next (set_QueuedReads true s)
  | _ :: rest =>
      Suspend (suspend_writer (WFireAndForgetQueries next item i rest) s)
  end.

Definition write_FireAndForgetQueries_done (next : WriteQueueItem.t)
    (item : Queries) (i : nat) (rest : Queries) (r : Outcome unit)
    (s : State) : Flow :=
  match r with
  | Ret _ => write_FireAndForgetQueries_loop next item (S i) rest s
  | Raise forced_unwind => Throw forced_unwind s
  | Raise (std_exception what) =>
      match item !! i with
      | None => Undefined
      | Some query =>
          Next (Log LogCritical "RedisWriter"
                  ("Error during sending query" +:+ LogQuery query +:+
                   " which has been fired and forgotten: " +:+ what) s)
      end
  | Raise unknown_exception =>
      match item !! i with
      | None => Undefined
      | Some query =>
          Next (Log LogCritical "RedisWriter"
                  ("Error during sending query" +:+ LogQuery query +:+
                   " which has been fired and forgotten") s)
      end
  end.

Definition write_FireAndForgetQueries (next : WriteQueueItem.t) (s : State)
  : Flow :=
  match WriteQueueItem.FireAndForgetQueries next with
  | Some item => write_FireAndForgetQueries_loop next item 0 item s
  | None => write_GetResultOfQuery next s
  end.

(** Lines 271-297. *)
Definition write_FireAndForgetQuery_done (next : WriteQueueItem.t)
    (item : Query) (r : Outcome unit) (s : State) : Flow :=
  match r with
  | Ret _ =>
      let s := extend_FutureResponseActions 1 Ignore s in
      write_FireAndForgetQueries next (set_QueuedReads true s)
  | Raise forced_unwind => Throw forced_unwind s
  | Raise (std_exception what) =>
      Next (Log LogCritical "RedisWriter"
              ("Error during sending query" +:+ LogQuery item +:+
               " which has been fired and forgotten: " +:+ what) s)
  | Raise unknown_exception =>
      Next (Log LogCritical "RedisWriter"
              ("Error during sending query" +:+ LogQuery item +:+
               " which has been fired and forgotten") s)
  end.

Definition write_FireAndForgetQuery (next : WriteQueueItem.t) (s : State)
  : Flow :=
  match WriteQueueItem.FireAndForgetQuery next with
  | Some item => Suspend (suspend_writer (WFireAndForgetQuery next item) s)
  | None => write_FireAndForgetQueries next s
  end.

(** The body of the [while] loop for the item just popped. *)
Definition WriteLoop_item (next : WriteQueueItem.t) (s : State) : Flow :=
  write_FireAndForgetQuery next s.

(** The [while] loop of line 267 from its test on, [ws] being the queue of
    items; when it is empty the flag is cleared and the coroutine is back
    in [Wait]. *)
Fixpoint WriteLoop_while (ws : list WriteQueueItem.t) (s : State) : Flow :=
  match ws with
  | [] => Suspend (set_writer WWait (set_QueuedWrites false s))
  | next :: ws' =>
      match WriteLoop_item next (set_Writes ws' s) with
      | Next s' => WriteLoop_while ws' s'
      | fl => fl
      end
  end.

Definition writer_continue (fl : Flow) : Flow :=
  match fl with
  | Next s => WriteLoop_while (Writes (m_Queues s)) s
  | _ => fl
  end.

Definition writer_settle (fl : Flow) : option State :=
  match writer_continue fl with
  | Suspend s | Next s => Some s
  | Throw e s => Some (set_writer (WTerminated e) s)
  | Undefined => None
  end.

(** The Writer woken in [Wait]. *)
Definition WriteLoop_wake (r : Outcome unit) (s : State) : option State :=
  match writer (tasks s) with
  | WWait =>
      match r with
      | Ret _ => if m_QueuedWrites (mem s) then writer_settle (Next s)
                 else Some s
      | Raise e => writer_settle (Throw e s)
      end
  | _ => Some s
  end.

(** What the Writer does with the result of the [WriteOne] it is
    suspended in, up to the end of the item or the next suspension. *)
Definition writer_resume (r : Outcome unit) (s : State) : option Flow :=
  match writer (tasks s) with
  | WFireAndForgetQuery next item =>
      Some (write_FireAndForgetQuery_done next item r s)
  | WFireAndForgetQueries next item i rest =>
      Some (write_FireAndForgetQueries_done next item i rest r s)
  | WGetResultOfQuery next item =>
      Some (write_GetResultOfQuery_done next item r s)
  | WGetResultsOfQueries next item rest =>
      Some (write_GetResultsOfQueries_done next item rest r s)
  | _ => None
  end.

(** The Writer resumed with the result of [WriteOne]. *)
Definition WriteLoop_written (r : Outcome unit) (s : State) : option State :=
  match writer_resume r s with
  | Some fl => writer_settle fl
  | None => Some s
  end.

(** ** The strand *)

Inductive Event :=
| EvStart
| EvFireAndForgetQuery (query : Query)
| EvFireAndForgetQueries (queries : Queries)
| EvGetResultOfQuery (query : Query)
| EvGetResultsOfQueries (queries : Queries)
| EvConnectBegin
| EvConnected (r : Outcome unit)
| EvWriterWake (r : Outcome unit)
| EvWriteOne (r : Outcome unit)
| EvReaderWake (r : Outcome unit)
| EvReadOne (r : Outcome Reply).

(** One handler or one uninterrupted run of a coroutine; [None] when the
    run has undefined behaviour.  An event whose coroutine is not at the
    matching suspension point changes nothing. *)
Definition step (ev : Event) (s : State) : option State :=
  match ev with
  | EvStart => Some (Start s)
  | EvFireAndForgetQuery query => Some (FireAndForgetQuery query s)
  | EvFireAndForgetQueries queries => Some (FireAndForgetQueries queries s)
  | EvGetResultOfQuery query => Some (GetResultOfQuery query s)
  | EvGetResultsOfQueries queries => Some (GetResultsOfQueries queries s)
  | EvConnectBegin => Some (Connect_begin s)
  | EvConnected r => Some (Connect_done r s)
  | EvWriterWake r => WriteLoop_wake r s
  | EvWriteOne r => WriteLoop_written r s
  | EvReaderWake r => ReadLoop_wake r s
  | EvReadOne r => ReadLoop_read r s
  end.

Fixpoint run (evs : list Event) (s : State) : option State :=
  match evs with
  | [] => Some s
  | ev :: evs' =>
      match step ev s with
      | Some s' => run evs' s'
      | None => None
      end
  end.

(** The states a connection can be in. *)
Definition reachable (s : State) : Prop :=
  exists host port path password db evs,
    run evs (RedisConnection host port path password db) = Some s.

(** ** Measures and predicates of the statements *)

(** The replies an action still stands for: the sum of the amounts of the
    entries with that action. *)
Fixpoint units (a : ResponseAction) (q : list FutureResponseAction) : N :=
  match q with
  | [] => 0
  | e :: q' =>
      if decide (Action e = a) then (Amount e + units a q')%N else units a q'
  end.

(** The Reader has popped an entry and is not through with it, or an
    exception has ended it. *)
Definition reader_mid_step (s : State) : bool :=
  match reader (tasks s) with
  | RNotSpawned | RWait => false
  | _ => true
  end.



(** The Writer is suspended in [WriteOne]. *)
Definition writer_in_WriteOne (s : State) : bool :=
  match writer (tasks s) with
  | WFireAndForgetQuery _ _ | WFireAndForgetQueries _ _ _ _
  | WGetResultOfQuery _ _ | WGetResultsOfQueries _ _ _ => true
  | _ => false
  end.

Definition AwaitBulk (queries : Queries) (promise : Promise) : WriteQueueItem.t :=
  WriteQueueItem.mk None None None (Some (queries, promise)).

(** *** Properties kept by the loops

    [flow_all P fl]: the state a run of a coroutine ends in satisfies [P]. *)
Definition flow_all (P : State -> Prop) (fl : Flow) : Prop :=
  match fl with
  | Suspend s | Next s | Throw _ s => P s
  | Undefined => True
  end.

(** What [WriteLoop] does to the state, update by update.  A property kept
    by each of them is kept by every run of the Writer. *)
Record writer_stable (P : State -> Prop) : Prop := {
  ws_pc : forall pc s, P s -> P (set_writer pc s);
  ws_call : forall s, P s -> P (count_WriteOne s);
  ws_log : forall sev fac msg s, P s -> P (Log sev fac msg s);
  ws_reads : forall s, P s -> P (set_QueuedReads true s);
  ws_clear : forall s, P s -> P (set_QueuedWrites false s);
  ws_pop : forall ws s, P s -> P (set_Writes ws s);
  ws_signal : forall p c s, P s -> P (record_signal p c s);
  ws_promise : forall p c s, P s -> P (on_promises (insert p c) s);
  ws_Ignore : forall n s, P s -> P (extend_FutureResponseActions n Ignore s);
  ws_Deliver : forall p s, P s ->
    P (extend_FutureResponseActions 1 Deliver
         (set_ReplyPromises (ReplyPromises (m_Queues s) ++ [p]) s));
  ws_DeliverBulk : forall n p s, P s ->
    P (set_FutureResponseActions
         (FutureResponseActions (m_Queues s) ++
          [{| Amount := n; Action := DeliverBulk |}])
         (set_RepliesPromises (RepliesPromises (m_Queues s) ++ [p]) s))
}.

(** What [ReadLoop] does to the state while it works on one entry. *)
Record reader_stable (P : State -> Prop) : Prop := {
  rs_pc : forall pc s, P s -> P (set_reader pc s);
  rs_call : forall s, P s -> P (count_ReadOne s);
  rs_log : forall sev fac msg s, P s -> P (Log sev fac msg s);
  rs_clear : forall s, P s -> P (set_QueuedReads false s);
  rs_signal : forall p c s, P s -> P (record_signal p c s);
  rs_promise : forall p c s, P s -> P (on_promises (insert p c) s);
  rs_ReplyPromises : forall p rest s,
    ReplyPromises (m_Queues s) = p :: rest -> P s -> P (set_ReplyPromises rest s);
  rs_RepliesPromises : forall p rest s,
    RepliesPromises (m_Queues s) = p :: rest -> P s ->
    P (set_RepliesPromises rest s)
}.

(** The entry at the front is popped. *)
Definition pop_stable (P : State -> Prop) : Prop :=
  forall item q s,
    FutureResponseActions (m_Queues s) = item :: q -> P s ->
    P (set_FutureResponseActions q s).

(** What the handlers outside the loops do: [Start], the submissions and
    the Connector. *)
Record api_stable (P : State -> Prop) : Prop := {
  as_Start : forall s, P s -> P (Start s);
  as_FireAndForgetQuery : forall query s, P s -> P (FireAndForgetQuery query s);
  as_FireAndForgetQueries : forall queries s,
    P s -> P (FireAndForgetQueries queries s);
  as_GetResultOfQuery : forall query s, P s -> P (GetResultOfQuery query s);
  as_GetResultsOfQueries : forall queries s,
    P s -> P (GetResultsOfQueries queries s);
  as_Connect_begin : forall s, P s -> P (Connect_begin s);
  as_Connect_done : forall r s, P s -> P (Connect_done r s)
}.

(** A connect attempt is under way. *)
Definition connect_in_progress (s : State) : bool :=
  negb (Nat.eqb (connSpawned (tasks s) + connSuspended (tasks s)) 0).

(** The flags and the coroutines agree. *)
Definition lifecycle (s : State) : Prop :=
  readLoopSpawns (world s) = (if m_Started (mem s) then 1 else 0) /\
  writeLoopSpawns (world s) = (if m_Started (mem s) then 1 else 0) /\
  connSpawned (tasks s) + connSuspended (tasks s) <= 1 /\
  m_Connecting (mem s) = connect_in_progress s || m_Connected (mem s).

(** The connect attempt is refused, then [Start] is called again. *)
Definition start_after_refusal : list Event :=
  [EvStart; EvConnectBegin;
   EvConnected (Raise (std_exception "Connection refused")); EvStart].


(** The three queues the Writer and the Reader share. *)
Definition wire (s : State)
  : list FutureResponseAction * list Promise * list Promise :=
  (FutureResponseActions (m_Queues s), ReplyPromises (m_Queues s),
   RepliesPromises (m_Queues s)).

(** [a] is [b] up to the multiples of 2^64 lost when an amount wrapped. *)
Definition slack (a b : N) : Prop := exists k, (a = b + k * 2 ^ 64)%N.

(** The promises of single replies against the [Deliver] units: in a
    [Deliver] entry the Reader has popped the promise of the read under
    way, [i - 1] more are due. *)
Definition promises_match (s : State) : Prop :=
  match reader (tasks s) with
  | RTerminated _ => True
  | RDeliver i _ =>
      i <> 0%N /\
      slack (size (ReplyPromises (m_Queues s)))
            (units Deliver (FutureResponseActions (m_Queues s)) + (i - 1))
  | _ =>
      slack (size (ReplyPromises (m_Queues s)))
            (units Deliver (FutureResponseActions (m_Queues s)))
  end.

(** A loop that has not been spawned is at its start. *)
Definition spawned_if_started (s : State) : Prop :=
  m_Started (mem s) = false -> reader (tasks s) = RNotSpawned.

(** What a run of the Reader ends in, for [promises_match]. *)
Definition flow_match (fl : Flow) : Prop :=
  match fl with
  | Suspend s => promises_match s
  | Next s =>
      slack (size (ReplyPromises (m_Queues s)))
            (units Deliver (FutureResponseActions (m_Queues s)))
  | Throw _ _ | Undefined => True
  end.

(** A query fired, a query awaited and two queries awaited in bulk, all
    sent. *)
Definition mixed_sent : list Event :=
  [EvStart; EvFireAndForgetQuery ["SET"; "a"; "1"];
   EvGetResultOfQuery ["GET"; "a"];
   EvGetResultsOfQueries [["GET"; "a"]; ["GET"; "b"]];
   EvWriterWake (Ret ()); EvWriteOne (Ret ()); EvWriteOne (Ret ());
   EvWriteOne (Ret ()); EvWriteOne (Ret ())].

(** *** The budget of the amounts

    The replies all entries stand for. *)
Fixpoint total (q : list FutureResponseAction) : N :=
  match q with
  | [] => 0
  | e :: q' => (Amount e + total q')%N
  end.

(** The queries of an item that the Writer has still to book, from the
    fourth, third, second and first [if] of the loop body on. *)
Definition weight4 (next : WriteQueueItem.t) : N :=
  match WriteQueueItem.GetResultsOfQueries next with
  | Some item => size item.1
  | None => 0
  end.
Definition weight3 (next : WriteQueueItem.t) : N :=
  (match WriteQueueItem.GetResultOfQuery next with
   | Some _ => 1
   | None => 0
   end + weight4 next)%N.
Definition weight2 (next : WriteQueueItem.t) : N :=
  (match WriteQueueItem.FireAndForgetQueries next with
   | Some item => size item
   | None => 0
   end + weight3 next)%N.
Definition weight (next : WriteQueueItem.t) : N :=
  (match WriteQueueItem.FireAndForgetQuery next with
   | Some _ => 1
   | None => 0
   end + weight2 next)%N.

Fixpoint queued (ws : list WriteQueueItem.t) : N :=
  match ws with
  | [] => 0
  | next :: ws' => (weight next + queued ws')%N
  end.

Definition in_flight (pc : WriterPc) : N :=
  match pc with
  | WFireAndForgetQuery next _ => (1 + weight2 next)%N
  | WFireAndForgetQueries next item _ _ => (size item + weight3 next)%N
  | WGetResultOfQuery next _ => (1 + weight4 next)%N
  | WGetResultsOfQueries _ item _ => size item.1
  | _ => 0%N
  end.

(** No bulk of the item is empty. *)
Definition nonempty4 (next : WriteQueueItem.t) : Prop :=
  match WriteQueueItem.GetResultsOfQueries next with
  | Some item => item.1 <> []
  | None => True
  end.
Definition nonempty2 (next : WriteQueueItem.t) : Prop :=
  match WriteQueueItem.FireAndForgetQueries next with
  | Some item => item <> []
  | None => True
  end /\ nonempty4 next.

Definition nonempty_pc (pc : WriterPc) : Prop :=
  match pc with
  | WFireAndForgetQuery next _ => nonempty2 next
  | WFireAndForgetQueries next item _ _ => item <> [] /\ nonempty4 next
  | WGetResultOfQuery next _ => nonempty4 next
  | WGetResultsOfQueries _ item _ => item.1 <> []
  | _ => True
  end.

(** The submission is not a bulk without queries. *)
Definition nonempty_submission (ev : Event) : Prop :=
  match ev with
  | EvFireAndForgetQueries queries | EvGetResultsOfQueries queries =>
      queries <> []
  | _ => True
  end.

Definition positive (q : list FutureResponseAction) : Prop :=
  Forall (fun e => (0 < Amount e)%N) q.

(** What is booked, queued and in flight is within the [B] queries
    submitted; while [B] fits [size_t] no amount has wrapped, and all are
    positive. *)
Definition budget (B : N) (q : list FutureResponseAction)
    (ws : list WriteQueueItem.t) (w : N) : Prop :=
  (total q + queued ws + w <= B)%N /\ Forall nonempty2 ws /\
  ((B < 2 ^ 64)%N -> positive q).

Definition budget_at (B : N) (ws : list WriteQueueItem.t) (w : N) (s : State)
  : Prop :=
  budget B (FutureResponseActions (m_Queues s)) ws w /\
  Writes (m_Queues s) = ws /\ nSubmitted (world s) = B.

Definition amounts_inv (s : State) : Prop :=
  budget_at (nSubmitted (world s)) (Writes (m_Queues s))
            (in_flight (writer (tasks s))) s /\
  nonempty_pc (writer (tasks s)).

Definition flow_budget (B : N) (ws : list WriteQueueItem.t) (fl : Flow) : Prop :=
  match fl with
  | Suspend s =>
      budget_at B ws (in_flight (writer (tasks s))) s /\
      nonempty_pc (writer (tasks s))
  | Next s | Throw _ s => budget_at B ws 0 s
  | Undefined => True
  end.

Definition flow_amounts (fl : Flow) : Prop :=
  match fl with
  | Suspend s => amounts_inv s
  | Next s | Throw _ s =>
      budget_at (nSubmitted (world s)) (Writes (m_Queues s)) 0 s
  | Undefined => True
  end.

(** An awaited bulk without queries, taken up by the Writer. *)
Definition empty_bulk_written : list Event :=
  [EvStart; EvGetResultsOfQueries []; EvWriterWake (Ret ())].

(** A fired bulk without queries, taken up by the Writer. *)
Definition empty_fire_written : list Event :=
  [EvStart; EvFireAndForgetQueries []; EvWriterWake (Ret ())].

(** *** No undefined behaviour

    The [DeliverBulk] entries. *)
Fixpoint count_bulk (q : list FutureResponseAction) : nat :=
  match q with
  | [] => 0
  | e :: q' =>
      if decide (Action e = DeliverBulk) then S (count_bulk q')
      else count_bulk q'
  end.

(** Each [DeliverBulk] entry has its promise. *)
Definition bulk_inv (s : State) : Prop :=
  count_bulk (FutureResponseActions (m_Queues s)) =
  length (RepliesPromises (m_Queues s)).

(** In the loop over a fired bulk, [i] is the index of the query being
    sent. *)
Definition writer_pc_ok (pc : WriterPc) : Prop :=
  match pc with
  | WFireAndForgetQueries _ item i rest => i + S (length rest) = length item
  | _ => True
  end.

Definition flow_safe (fl : Flow) : Prop :=
  match fl with
  | Suspend s | Next s | Throw _ s => bulk_inv s
  | Undefined => False
  end.

Definition flow_writer_safe (fl : Flow) : Prop :=
  match fl with
  | Suspend s => writer_pc_ok (writer (tasks s))
  | Next _ | Throw _ _ => True
  | Undefined => False
  end.

(** What rules undefined behaviour out. *)
Definition safe_inv (s : State) : Prop :=
  promises_match s /\ spawned_if_started s /\ bulk_inv s /\
  writer_pc_ok (writer (tasks s)).

(** *** Who holds a promise

    The occurrences of a promise in a list. *)
Fixpoint occ (p : nat) (l : list nat) : nat :=
  match l with
  | [] => 0
  | x :: l' => (if decide (x = p) then 1 else 0) + occ p l'
  end.

(** The promises of an item, from the fourth and from the third [if] of
    the loop body on. *)
Definition item_promises4 (next : WriteQueueItem.t) : list nat :=
  match WriteQueueItem.GetResultsOfQueries next with
  | Some item => [item.2]
  | None => []
  end.
Definition item_promises3 (next : WriteQueueItem.t) : list nat :=
  match WriteQueueItem.GetResultOfQuery next with
  | Some item => [item.2]
  | None => []
  end ++ item_promises4 next.

Fixpoint writes_promises (ws : list WriteQueueItem.t) : list nat :=
  match ws with
  | [] => []
  | next :: ws' => item_promises3 next ++ writes_promises ws'
  end.

(** The promises the Writer holds at a program point. *)
Definition writer_promises (pc : WriterPc) : list nat :=
  match pc with
  | WFireAndForgetQuery next _ | WFireAndForgetQueries next _ _ _ =>
      item_promises3 next
  | WGetResultOfQuery next item => item.2 :: item_promises4 next
  | WGetResultsOfQueries _ item _ => [item.2]
  | _ => []
  end.

(** The promises the Reader holds, and those of them that cannot have
    been signalled yet: the promise of a bulk takes the exception of a
    failed read before the Reader is through with it. *)
Definition reader_promises (pc : ReaderPc) : list nat :=
  match pc with
  | RDeliver _ p | RDeliverBulk _ p _ => [p]
  | _ => []
  end.
Definition reader_pending (pc : ReaderPc) : list nat :=
  match pc with
  | RDeliver _ p => [p]
  | _ => []
  end.

(** The occurrences of a promise in the queues. *)
Definition occ_queues (p : nat) (s : State) : nat :=
  occ p (ReplyPromises (m_Queues s)) + occ p (RepliesPromises (m_Queues s)) +
  occ p (writes_promises (Writes (m_Queues s))).

(** With [ho] the promises the coroutines hold and [hp] those of them not
    signalled yet: [p] is held at most once, has no result while it waits,
    and is unknown and without result if it has not been created. *)
Definition own_at (p : nat) (ho hp : list nat) (s : State) : Prop :=
  occ p ho + occ_queues p s <= 1 /\
  (1 <= occ p hp + occ_queues p s -> promises (world s) !! p = None) /\
  (nextPromise (world s) <= p ->
   occ p ho + occ_queues p s = 0 /\ promises (world s) !! p = None).

Definition own_inv (s : State) : Prop :=
  forall p,
    own_at p
      (reader_promises (reader (tasks s)) ++ writer_promises (writer (tasks s)))
      (reader_pending (reader (tasks s)) ++ writer_promises (writer (tasks s)))
      s.

(** During a run of the Writer, [h] being the promises in its hand. *)
Definition writer_own (h : list nat) (s : State) : Prop :=
  forall p,
    own_at p (reader_promises (reader (tasks s)) ++ h)
             (reader_pending (reader (tasks s)) ++ h) s.

Definition flow_writer_own (ws : list WriteQueueItem.t) (fl : Flow) : Prop :=
  match fl with
  | Suspend s =>
      writer_own (writer_promises (writer (tasks s))) s /\
      Writes (m_Queues s) = ws
  | Next s | Throw _ s => writer_own [] s /\ Writes (m_Queues s) = ws
  | Undefined => True
  end.

(** During a run of the Reader, [ho] and [hp] being the promises in its
    hand. *)
Definition reader_own (ho hp : list nat) (s : State) : Prop :=
  forall p,
    own_at p (ho ++ writer_promises (writer (tasks s)))
             (hp ++ writer_promises (writer (tasks s))) s.

Definition flow_reader_own (fl : Flow) : Prop :=
  match fl with
  | Suspend s =>
      reader_own (reader_promises (reader (tasks s)))
                 (reader_pending (reader (tasks s))) s
  | Next s | Throw _ s => reader_own [] [] s
  | Undefined => True
  end.

(** *** Invariants of the strand *)

Definition started (s : State) : Prop := m_Started (mem s) = true.


Definition single_replies_inv (s : State) : Prop :=
  promises_match s /\ spawned_if_started s.

(** ** Further measures and predicates

    *** The log line of a query

    The arguments of a query as [LogQuery] writes them, followed by
    [tail]. *)
Definition quoted_args (args : list string) (tail : string) : string :=
  foldr (fun arg acc => " '" +:+ arg +:+ "'" +:+ acc) tail args.

(** *** The connection of [ReadOne] and [WriteOne]

    Lines 379-395: both hand [m_TcpConn] to the template when [m_Path] is
    empty and [m_UnixConn] otherwise; this is whether the pointer they
    hand on is set. *)
Definition ReadOne_conn (s : State) : bool :=
  if Path_IsEmpty s then m_TcpConn (mem s) else m_UnixConn (mem s).

Definition WriteOne_conn (s : State) : bool :=
  if Path_IsEmpty s then m_TcpConn (mem s) else m_UnixConn (mem s).

(** The pointer of the configured transport is set once the connection
    is established, the other one never. *)
Definition transport_inv (s : State) : Prop :=
  m_TcpConn (mem s) = Path_IsEmpty s && m_Connected (mem s) /\
  m_UnixConn (mem s) = negb (Path_IsEmpty s) && m_Connected (mem s).

(** *** The flags of the loops

    Work that is queued is signalled: the flag a loop waits for is set
    while its queue is not empty. *)
Definition wake_inv (s : State) : Prop :=
  (FutureResponseActions (m_Queues s) <> [] -> m_QueuedReads (mem s) = true) /\
  (Writes (m_Queues s) <> [] -> m_QueuedWrites (mem s) = true).

(** During a run of the Writer, [ws] being the items left. *)
Definition writer_wake (ws : list WriteQueueItem.t) (s : State) : Prop :=
  wake_inv s /\ Writes (m_Queues s) = ws.

(** During a run of the Reader, [q] being the entries left. *)
Definition reader_wake (q : list FutureResponseAction) (s : State) : Prop :=
  wake_inv s /\ FutureResponseActions (m_Queues s) = q.

(** *** The Writer after a failed send

    The Writer is in [Wait] or in a [WriteOne]. *)
Definition writer_alive (s : State) : Prop :=
  writer (tasks s) = WWait \/ writer_in_WriteOne s = true.

(** A run of the Writer that neither throws nor has undefined behaviour. *)
Definition flow_alive (fl : Flow) : Prop :=
  match fl with
  | Suspend s => writer_alive s
  | Next _ => True
  | Throw _ _ | Undefined => False
  end.

(** *** The reads against the writes

    The replies the Reader has still to read for the entry it works on,
    the read under way apart. *)
Definition due (pc : ReaderPc) : N :=
  match pc with
  | RIgnore i | RDeliver i _ | RDeliverBulk i _ _ => (i - 1)%N
  | _ => 0%N
  end.

(** The calls of [WriteOne] for the item the Writer works on that are not
    booked in an entry yet: those that returned and the one under way. *)
Definition unbooked (pc : WriterPc) : N :=
  match pc with
  | WFireAndForgetQuery _ _ | WGetResultOfQuery _ _ => 1%N
  | WFireAndForgetQueries _ _ i _ => N.of_nat (S i)
  | WGetResultsOfQueries _ item rest =>
      N.of_nat (length item.1 - length rest)
  | _ => 0%N
  end.

(** In the loops over a bulk, the queries left are fewer than the bulk. *)
Definition bulk_pc_ok (pc : WriterPc) : Prop :=
  match pc with
  | WFireAndForgetQueries _ item i rest => i + S (length rest) = length item
  | WGetResultsOfQueries _ item rest => length rest < length item.1
  | _ => True
  end.

(** The reads begun, the [d] reads due for the entry at hand, the replies
    booked and the [c] writes not booked yet are within the writes begun. *)
Definition reads_covered (c d : N) (s : State) : Prop :=
  (N.of_nat (nReadOne (world s)) + d +
   total (FutureResponseActions (m_Queues s)) + c
   <= N.of_nat (nWriteOne (world s)))%N.

Definition covered_inv (s : State) : Prop :=
  reads_covered (unbooked (writer (tasks s))) (due (reader (tasks s))) s /\
  bulk_pc_ok (writer (tasks s)).

(** During a run of the Reader, [i] being the reads due. *)
Definition reader_covered (i : N) (s : State) : Prop :=
  reads_covered (unbooked (writer (tasks s))) i s /\
  bulk_pc_ok (writer (tasks s)).

Definition flow_writer_covered (fl : Flow) : Prop :=
  match fl with
  | Suspend s => covered_inv s
  | Next s | Throw _ s => reads_covered 0 (due (reader (tasks s))) s
  | Undefined => True
  end.

Definition flow_reader_covered (fl : Flow) : Prop :=
  match fl with
  | Suspend s => covered_inv s
  | Next s | Throw _ s => reader_covered 0 s
  | Undefined => True
  end.

(** ** Example runs *)

Definition conn0 : State := RedisConnection "localhost" 6379 "" "" 0.

Definition after (evs : list Event) : State := default conn0 (run evs conn0).

(** Two queries fired in bulk, both sent, the Reader in its first read. *)
Definition ignore2_reading : list Event :=
  [EvStart; EvFireAndForgetQueries [["SET"; "a"; "1"]; ["SET"; "b"; "2"]];
   EvWriterWake (Ret ()); EvWriteOne (Ret ()); EvWriteOne (Ret ());
   EvReaderWake (Ret ())].


(** One awaited query, the Writer in its send. *)
Definition await1_send : list Event :=
  [EvStart; EvGetResultOfQuery ["GET"; "a"]; EvWriterWake (Ret ())].

(** Two queries awaited in bulk, both sent, the Reader in its first read. *)
Definition bulk2_reading : list Event :=
  [EvStart; EvGetResultsOfQueries [["GET"; "a"]; ["GET"; "b"]];
   EvWriterWake (Ret ()); EvWriteOne (Ret ()); EvWriteOne (Ret ());
   EvReaderWake (Ret ())].

(** Three queries awaited in bulk, all sent, the Reader in its first read. *)
Definition bulk3_reading : list Event :=
  [EvStart; EvGetResultsOfQueries [["GET"; "a"]; ["GET"; "b"]; ["GET"; "c"]];
   EvWriterWake (Ret ()); EvWriteOne (Ret ()); EvWriteOne (Ret ());
   EvWriteOne (Ret ()); EvReaderWake (Ret ())].

(** Two queries awaited in bulk, the first one sent, the Writer in the
    send of the second. *)
Definition bulk2_second_send : list Event :=
  [EvStart; EvGetResultsOfQueries [["GET"; "a"]; ["GET"; "b"]];
   EvWriterWake (Ret ()); EvWriteOne (Ret ())].

(** Two queries awaited, both sent, the Reader in the read for the first. *)
Definition await2_reading : list Event :=
  [EvStart; EvGetResultOfQuery ["GET"; "a"]; EvGetResultOfQuery ["GET"; "b"];
   EvWriterWake (Ret ()); EvWriteOne (Ret ()); EvWriteOne (Ret ());
   EvReaderWake (Ret ())].

(** The connection established. *)
Definition connected : list Event :=
  [EvStart; EvConnectBegin; EvConnected (Ret ())].

(** [Start] called, nothing else run yet. *)
Definition just_started : list Event := [EvStart].

(** * Properties *)

(** Projections of updated states. *)
Ltac state_simpl :=
  cbn [conf mem m_Queues tasks world
       m_Connecting m_Connected m_Started m_TcpConn m_UnixConn
       m_QueuedWrites m_QueuedReads
       Writes FutureResponseActions ReplyPromises RepliesPromises
       reader writer connSpawned connSuspended
       promises signals nextPromise log readLoopSpawns writeLoopSpawns
       connectSpawns connectExits nReadOne nWriteOne nSubmitted
       on_mem on_queues on_tasks on_world
       set_Connecting set_Connected set_Started set_TcpConn set_UnixConn
       set_QueuedWrites set_QueuedReads
       set_Writes set_FutureResponseActions set_ReplyPromises
       set_RepliesPromises set_reader set_writer set_connectors
       on_promises record_signal set_nextPromise on_log count_loop_spawns
       count_connect_spawn record_connect_exit count_ReadOne count_WriteOne
       count_submitted Log extend_FutureResponseActions
       suspend_reader suspend_writer post_write notConnecting
       fst snd] in *.

(** ** Runs *)

Lemma after_run evs s : run evs conn0 = Some s -> after evs = s.
Proof. unfold after. by intros ->. Qed.

Lemma run_invariant (P : State -> Prop) :
  (forall ev s s', P s -> step ev s = Some s' -> P s') ->
  forall evs s s', P s -> run evs s = Some s' -> P s'.
Proof.
  intros Hstep evs. induction evs as [|ev evs IH]; simpl; intros s s' HP Hrun.
  - by injection Hrun as <-.
  - destruct (step ev s) as [s1|] eqn:Hs; [|done]. eauto.
Qed.

Lemma run_invariant_on (Q : Event -> Prop) (P : State -> Prop) :
  (forall ev s s', Q ev -> P s -> step ev s = Some s' -> P s') ->
  forall evs s s', Forall Q evs -> P s -> run evs s = Some s' -> P s'.
Proof.
  intros Hstep evs. induction evs as [|ev evs IH]; simpl; intros s s' HQ HP Hrun.
  - by injection Hrun as <-.
  - inversion_clear HQ.
    destruct (step ev s) as [s1|] eqn:Hs; [|done]. eauto.
Qed.

Lemma run_app evs evs' s :
  run (evs ++ evs') s = run evs s ≫= run evs'.
Proof.
  revert s. induction evs as [|ev evs IH]; simpl; intros s; [done|].
  destruct (step ev s); simpl; auto.
Qed.

Lemma flow_all_impl (P Q : State -> Prop) fl :
  (forall s, P s -> Q s) -> flow_all P fl -> flow_all Q fl.
Proof. destruct fl; simpl; auto. Qed.

(** ** The queue of entries *)

Lemma units_app a q q' : units a (q ++ q') = (units a q + units a q')%N.
Proof.
  induction q as [|e q IH]; simpl; [done|].
  rewrite IH. destruct (decide (Action e = a)); lia.
Qed.

Lemma last_removelast {A} (q : list A) b :
  last q = Some b -> q = removelast q ++ [b].
Proof.
  destruct (decide (q = [])) as [->|Hne]; [done|].
  destruct (exists_last Hne) as (q' & b' & ->).
  rewrite last_snoc, removelast_last. by intros [= ->].
Qed.


(** ** What every run of the Writer keeps *)

Ltac writer_stable_tac HP :=
  repeat first
    [ assumption
    | apply (ws_pc _ HP) | apply (ws_call _ HP) | apply (ws_log _ HP)
    | apply (ws_reads _ HP) | apply (ws_clear _ HP) | apply (ws_pop _ HP)
    | apply (ws_promise _ HP) | apply (ws_signal _ HP)
    | apply (ws_Ignore _ HP) | apply (ws_Deliver _ HP)
    | apply (ws_DeliverBulk _ HP) ].

Section WriterStable.
Variable P : State -> Prop.
Hypothesis HP : writer_stable P.

Lemma set_result_writer_stable p c s :
  P s -> match set_result p c s with
         | Satisfied s' | AlreadySatisfied s' => P s'
         end.
Proof.
  intros H. unfold set_result.
  destruct (promises (world s) !! p); writer_stable_tac HP.
Qed.

Lemma write_GetResultsOfQueries_loop_stable next item todo s :
  P s -> flow_all P (write_GetResultsOfQueries_loop next item todo s).
Proof.
  intros H. unfold write_GetResultsOfQueries_loop, suspend_writer.
  destruct todo; simpl; writer_stable_tac HP.
Qed.

Lemma write_GetResultsOfQueries_done_stable next item rest r s :
  P s -> flow_all P (write_GetResultsOfQueries_done next item rest r s).
Proof.
  intros H. unfold write_GetResultsOfQueries_done.
  destruct r as [|[]]; simpl;
    auto using write_GetResultsOfQueries_loop_stable.
  all: match goal with
       | |- context [set_result ?p ?c ?s] =>
           pose proof (set_result_writer_stable p c s H);
           destruct (set_result p c s); simpl; auto
       end.
Qed.

Lemma write_GetResultsOfQueries_stable next s :
  P s -> flow_all P (write_GetResultsOfQueries next s).
Proof.
  intros H. unfold write_GetResultsOfQueries.
  destruct (WriteQueueItem.GetResultsOfQueries next); simpl;
    auto using write_GetResultsOfQueries_loop_stable.
Qed.

Lemma write_GetResultOfQuery_done_stable next item r s :
  P s -> flow_all P (write_GetResultOfQuery_done next item r s).
Proof.
  intros H. unfold write_GetResultOfQuery_done.
  destruct r as [|[]]; simpl; auto.
  - apply write_GetResultsOfQueries_stable. writer_stable_tac HP.
  - pose proof (set_result_writer_stable item.2
                  (Failed (std_exception what)) s H).
    destruct (set_result _ _ s); simpl; auto.
  - pose proof (set_result_writer_stable item.2
                  (Failed unknown_exception) s H).
    destruct (set_result _ _ s); simpl; auto.
Qed.

Lemma write_GetResultOfQuery_stable next s :
  P s -> flow_all P (write_GetResultOfQuery next s).
Proof.
  intros H. unfold write_GetResultOfQuery, suspend_writer.
  destruct (WriteQueueItem.GetResultOfQuery next); simpl;
    [writer_stable_tac HP | by apply write_GetResultsOfQueries_stable].
Qed.

Lemma write_FireAndForgetQueries_loop_stable next item i todo s :
  P s -> flow_all P (write_FireAndForgetQueries_loop next item i todo s).
Proof.
  intros H. unfold write_FireAndForgetQueries_loop, suspend_writer.
  destruct todo; simpl; [|writer_stable_tac HP].
  apply write_GetResultOfQuery_stable. writer_stable_tac HP.
Qed.

Lemma write_FireAndForgetQueries_done_stable next item i rest r s :
  P s -> flow_all P (write_FireAndForgetQueries_done next item i rest r s).
Proof.
  intros H. unfold write_FireAndForgetQueries_done.
  destruct r as [|[]]; simpl;
    auto using write_FireAndForgetQueries_loop_stable;
    destruct (item !! i); simpl; writer_stable_tac HP; done.
Qed.

Lemma write_FireAndForgetQueries_stable next s :
  P s -> flow_all P (write_FireAndForgetQueries next s).
Proof.
  intros H. unfold write_FireAndForgetQueries.
  destruct (WriteQueueItem.FireAndForgetQueries next);
    auto using write_FireAndForgetQueries_loop_stable,
               write_GetResultOfQuery_stable.
Qed.

Lemma write_FireAndForgetQuery_done_stable next item r s :
  P s -> flow_all P (write_FireAndForgetQuery_done next item r s).
Proof.
  intros H. unfold write_FireAndForgetQuery_done.
  destruct r as [|[]]; simpl; auto; [|writer_stable_tac HP..].
  apply write_FireAndForgetQueries_stable. writer_stable_tac HP.
Qed.

Lemma WriteLoop_item_stable next s :
  P s -> flow_all P (WriteLoop_item next s).
Proof.
  intros H. unfold WriteLoop_item, write_FireAndForgetQuery, suspend_writer.
  destruct (WriteQueueItem.FireAndForgetQuery next); simpl;
    [writer_stable_tac HP | by apply write_FireAndForgetQueries_stable].
Qed.

Lemma WriteLoop_while_stable ws s :
  P s -> flow_all P (WriteLoop_while ws s).
Proof.
  revert s. induction ws as [|next ws IH]; intros s H; simpl.
  - writer_stable_tac HP.
  - pose proof (WriteLoop_item_stable next (set_Writes ws s)
                  ltac:(writer_stable_tac HP)) as Hi.
    destruct (WriteLoop_item next (set_Writes ws s)); simpl in *; auto.
Qed.

Lemma writer_settle_stable fl s' :
  flow_all P fl -> writer_settle fl = Some s' -> P s'.
Proof.
  unfold writer_settle, writer_continue. intros H.
  destruct fl as [s|s|e s|]; simpl in H.
  - by intros [= <-].
  - pose proof (WriteLoop_while_stable (Writes (m_Queues s)) s H) as Hw.
    destruct (WriteLoop_while _ s); simpl in Hw; intros [= <-];
      writer_stable_tac HP.
  - intros [= <-]. writer_stable_tac HP.
  - done.
Qed.

Lemma WriteLoop_wake_stable r s s' :
  P s -> WriteLoop_wake r s = Some s' -> P s'.
Proof.
  intros H. unfold WriteLoop_wake.
  destruct (writer (tasks s)); try (by intros [= <-]).
  destruct r.
  - destruct (m_QueuedWrites (mem s)); [|by intros [= <-]].
    by apply writer_settle_stable.
  - by apply writer_settle_stable.
Qed.

Lemma writer_resume_stable r s fl :
  P s -> writer_resume r s = Some fl -> flow_all P fl.
Proof.
  intros H. unfold writer_resume.
  destruct (writer (tasks s)); intros [= <-];
    auto using write_FireAndForgetQuery_done_stable,
               write_FireAndForgetQueries_done_stable,
               write_GetResultOfQuery_done_stable,
               write_GetResultsOfQueries_done_stable.
Qed.

Lemma WriteLoop_written_stable r s s' :
  P s -> WriteLoop_written r s = Some s' -> P s'.
Proof.
  intros H. unfold WriteLoop_written.
  destruct (writer_resume r s) as [fl|] eqn:Hr; [|by intros [= <-]].
  apply writer_settle_stable. by eapply writer_resume_stable.
Qed.
End WriterStable.

(** ** What every run of the Reader keeps *)

Ltac reader_stable_tac HP :=
  repeat first
    [ assumption
    | apply (rs_pc _ HP) | apply (rs_call _ HP) | apply (rs_log _ HP)
    | apply (rs_clear _ HP) | apply (rs_promise _ HP)
    | apply (rs_signal _ HP)
    | eapply (rs_ReplyPromises _ HP); [eassumption|]
    | eapply (rs_RepliesPromises _ HP); [eassumption|] ].

Section ReaderStable.
Variable P : State -> Prop.
Hypothesis HP : reader_stable P.

Lemma set_result_reader_stable p c s :
  P s -> match set_result p c s with
         | Satisfied s' | AlreadySatisfied s' => P s'
         end.
Proof.
  intros H. unfold set_result.
  destruct (promises (world s) !! p); reader_stable_tac HP.
Qed.

Lemma read_Ignore_stable i s : P s -> flow_all P (read_Ignore i s).
Proof.
  intros H. unfold read_Ignore, suspend_reader.
  destruct (decide (i = 0%N)); simpl; reader_stable_tac HP.
Qed.

Lemma read_Ignore_done_stable i r s :
  P s -> flow_all P (read_Ignore_done i r s).
Proof.
  intros H. unfold read_Ignore_done.
  destruct r as [|[]]; simpl; auto using read_Ignore_stable;
    reader_stable_tac HP.
Qed.

Lemma read_Deliver_stable i s : P s -> flow_all P (read_Deliver i s).
Proof.
  intros H. unfold read_Deliver, suspend_reader.
  destruct (decide (i = 0%N)); simpl; [done|].
  destruct (ReplyPromises (m_Queues s)) eqn:Hq; simpl; [done|].
  reader_stable_tac HP.
Qed.

Lemma read_Deliver_done_stable i promise r s :
  P s -> flow_all P (read_Deliver_done i promise r s).
Proof.
  intros H. unfold read_Deliver_done.
  destruct r as [|[]]; simpl; auto.
  all: match goal with
       | |- context [set_result ?p ?c ?s] =>
           pose proof (set_result_reader_stable p c s H);
           destruct (set_result p c s); simpl; auto using read_Deliver_stable
       end.
Qed.

Lemma read_DeliverBulk_stable i promise replies s :
  P s -> flow_all P (read_DeliverBulk i promise replies s).
Proof.
  intros H. unfold read_DeliverBulk, suspend_reader.
  destruct (decide (i = 0%N)); simpl; [|reader_stable_tac HP].
  pose proof (set_result_reader_stable promise (Values replies) s H).
  destruct (set_result _ _ s); simpl; auto.
Qed.

Lemma read_DeliverBulk_done_stable i promise replies r s :
  P s -> flow_all P (read_DeliverBulk_done i promise replies r s).
Proof.
  intros H. unfold read_DeliverBulk_done.
  destruct r as [|[]]; simpl; auto using read_DeliverBulk_stable.
  all: match goal with
       | |- context [set_result ?p ?c ?s] =>
           pose proof (set_result_reader_stable p c s H);
           destruct (set_result p c s); simpl;
           auto using read_DeliverBulk_stable
       end.
Qed.

Lemma ReadLoop_item_stable item s : P s -> flow_all P (ReadLoop_item item s).
Proof.
  intros H. unfold ReadLoop_item.
  destruct (Action item);
    auto using read_Ignore_stable, read_Deliver_stable.
  destruct (RepliesPromises (m_Queues s)) eqn:Hq; simpl; [done|].
  apply read_DeliverBulk_stable. reader_stable_tac HP.
Qed.
End ReaderStable.

Lemma reader_stable_frame (P : State -> Prop) q :
  reader_stable P ->
  reader_stable (fun s => P s /\ FutureResponseActions (m_Queues s) = q).
Proof.
  intros HP. split; intros; destruct_and?; (split; [|done]);
    reader_stable_tac HP.
Qed.

Section ReaderLoopStable.
Variable P : State -> Prop.
Hypothesis HP : reader_stable P.
Hypothesis Hpop : pop_stable P.

Lemma ReadLoop_while_stable q s :
  FutureResponseActions (m_Queues s) = q -> P s ->
  flow_all P (ReadLoop_while q s).
Proof.
  revert s. induction q as [|item q IH]; intros s Hq H; simpl.
  - reader_stable_tac HP.
  - pose proof (ReadLoop_item_stable _ (reader_stable_frame P q HP) item
                  (set_FutureResponseActions q s)
                  (conj (Hpop _ _ _ Hq H) eq_refl)) as Hi.
    destruct (ReadLoop_item item _); simpl in *; try tauto.
    destruct Hi. auto.
Qed.

Lemma reader_settle_stable fl s' :
  flow_all P fl -> reader_settle fl = Some s' -> P s'.
Proof.
  unfold reader_settle, reader_continue. intros H.
  destruct fl as [s|s|e s|]; simpl in H.
  - by intros [= <-].
  - pose proof (ReadLoop_while_stable _ s eq_refl H) as Hw.
    destruct (ReadLoop_while _ s); simpl in Hw; intros [= <-];
      reader_stable_tac HP.
  - intros [= <-]. reader_stable_tac HP.
  - done.
Qed.

Lemma ReadLoop_wake_stable r s s' :
  P s -> ReadLoop_wake r s = Some s' -> P s'.
Proof.
  intros H. unfold ReadLoop_wake.
  destruct (reader (tasks s)); try (by intros [= <-]).
  destruct r.
  - destruct (m_QueuedReads (mem s)); [|by intros [= <-]].
    by apply reader_settle_stable.
  - by apply reader_settle_stable.
Qed.

Lemma ReadLoop_read_stable r s s' :
  P s -> ReadLoop_read r s = Some s' -> P s'.
Proof.
  intros H. unfold ReadLoop_read.
  destruct (reader (tasks s)); try (by intros [= <-]);
    apply reader_settle_stable;
    auto using read_Ignore_done_stable, read_Deliver_done_stable,
               read_DeliverBulk_done_stable.
Qed.
End ReaderLoopStable.

(** ** The handlers outside the loops *)

Lemma step_stable (P : State -> Prop) :
  api_stable P -> writer_stable P -> reader_stable P -> pop_stable P ->
  forall ev s s', P s -> step ev s = Some s' -> P s'.
Proof.
  intros Ha Hw Hr Hp ev s s' H.
  destruct ev; simpl; try (intros [= <-]; by apply Ha).
  - by apply WriteLoop_wake_stable.
  - by apply WriteLoop_written_stable.
  - by apply ReadLoop_wake_stable.
  - by apply ReadLoop_read_stable.
Qed.

Lemma log_queries_frame (f : State -> State) msg queries s :
  (forall sev fac m s, f (Log sev fac m s) = Log sev fac m (f s)) ->
  f (log_queries msg queries s) = log_queries msg queries (f s).
Proof.
  intros Hf. unfold log_queries. revert s.
  induction queries as [|q queries IH]; intros s; simpl; [done|].
  by rewrite IH, Hf.
Qed.

Lemma log_queries_mem msg queries s : mem (log_queries msg queries s) = mem s.
Proof.
  unfold log_queries. revert s.
  induction queries as [|q queries IH]; intros s; simpl; [done|]. by rewrite IH.
Qed.

Lemma log_queries_queues msg queries s :
  m_Queues (log_queries msg queries s) = m_Queues s.
Proof.
  unfold log_queries. revert s.
  induction queries as [|q queries IH]; intros s; simpl; [done|]. by rewrite IH.
Qed.

Lemma log_queries_tasks msg queries s :
  tasks (log_queries msg queries s) = tasks s.
Proof.
  unfold log_queries. revert s.
  induction queries as [|q queries IH]; intros s; simpl; [done|]. by rewrite IH.
Qed.

Lemma log_queries_world msg queries s :
  let w := world (log_queries msg queries s) in
  promises w = promises (world s) /\ signals w = signals (world s) /\
  nextPromise w = nextPromise (world s) /\
  readLoopSpawns w = readLoopSpawns (world s) /\
  writeLoopSpawns w = writeLoopSpawns (world s) /\
  connectSpawns w = connectSpawns (world s) /\
  connectExits w = connectExits (world s) /\
  nReadOne w = nReadOne (world s) /\ nWriteOne w = nWriteOne (world s) /\
  nSubmitted w = nSubmitted (world s).
Proof.
  unfold log_queries. revert s.
  induction queries as [|q queries IH]; intros s; simpl; [done|].
  apply (IH (Log _ _ _ s)).
Qed.

Lemma Start_wire s : wire (Start s) = wire s.
Proof.
  unfold Start.
  destruct (m_Started (mem s)); state_simpl;
    destruct (m_Connecting (mem s)); done.
Qed.

Lemma Start_Writes s : Writes (m_Queues (Start s)) = Writes (m_Queues s).
Proof.
  unfold Start.
  destruct (m_Started (mem s)); state_simpl;
    destruct (m_Connecting (mem s)); done.
Qed.

Lemma FireAndForgetQueries_wire queries s :
  wire (FireAndForgetQueries queries s) = wire s.
Proof.
  unfold wire, FireAndForgetQueries. state_simpl.
  by rewrite log_queries_queues.
Qed.

Lemma GetResultsOfQueries_wire queries s :
  wire (GetResultsOfQueries queries s) = wire s.
Proof.
  unfold wire, GetResultsOfQueries. state_simpl.
  by rewrite log_queries_queues.
Qed.

Lemma Connect_begin_frame s :
  m_Queues (Connect_begin s) = m_Queues s /\
  reader (tasks (Connect_begin s)) = reader (tasks s) /\
  writer (tasks (Connect_begin s)) = writer (tasks s) /\
  m_Started (mem (Connect_begin s)) = m_Started (mem s) /\
  nSubmitted (world (Connect_begin s)) = nSubmitted (world s).
Proof. unfold Connect_begin. by destruct (connSpawned (tasks s)). Qed.

Lemma Connect_done_frame r s :
  m_Queues (Connect_done r s) = m_Queues s /\
  reader (tasks (Connect_done r s)) = reader (tasks s) /\
  writer (tasks (Connect_done r s)) = writer (tasks s) /\
  m_Started (mem (Connect_done r s)) = m_Started (mem s) /\
  nSubmitted (world (Connect_done r s)) = nSubmitted (world s).
Proof.
  unfold Connect_done. destruct (connSuspended (tasks s)); [done|].
  destruct r as [|[]]; try destruct (Path_IsEmpty _); done.
Qed.

Lemma wire_api (Q : list FutureResponseAction * list Promise * list Promise -> Prop) :
  api_stable (fun s => Q (wire s)).
Proof.
  split; try (intros; assumption).
  - intros s. by rewrite Start_wire.
  - intros queries s. by rewrite FireAndForgetQueries_wire.
  - intros queries s. by rewrite GetResultsOfQueries_wire.
  - intros s. unfold wire.
    by destruct (Connect_begin_frame s) as (-> & _).
  - intros r s. unfold wire.
    by destruct (Connect_done_frame r s) as (-> & _).
Qed.

(** ** [Start] and the flags *)

Ltac lifecycle_tac :=
  state_simpl;
  repeat match goal with
         | H : _ = _ |- _ => rewrite H in *; clear H
         end;
  unfold connect_in_progress in *; state_simpl;
  repeat match goal with
         | |- context [Nat.eqb ?a ?b] => destruct (Nat.eqb_spec a b)
         | H : context [Nat.eqb ?a ?b] |- _ => destruct (Nat.eqb_spec a b)
         end;
  simpl in *; repeat split; try done; try lia.

Lemma lifecycle_api : api_stable lifecycle.
Proof.
  split; unfold lifecycle.
  - intros s (Hr & Hw & Hc & Hf). unfold Start.
    destruct (m_Started (mem s)) eqn:Hst;
      destruct (m_Connected (mem s)) eqn:Hcd;
      destruct (connect_in_progress s) eqn:Hp; simpl in Hf;
      state_simpl; rewrite Hf; lifecycle_tac.
  - intros query s H. exact H.
  - intros queries s H. unfold FireAndForgetQueries, connect_in_progress.
    state_simpl. rewrite log_queries_mem, log_queries_tasks.
    destruct (log_queries_world "Firing and forgetting query:" queries s)
      as (_ & _ & _ & -> & -> & _). exact H.
  - intros query s H. exact H.
  - intros queries s H. unfold GetResultsOfQueries, connect_in_progress.
    state_simpl. rewrite log_queries_mem, log_queries_tasks.
    destruct (log_queries_world "Executing query:" queries s)
      as (_ & _ & _ & -> & -> & _). exact H.
  - intros s (Hr & Hw & Hc & Hf). unfold Connect_begin.
    destruct (connSpawned (tasks s)) as [|n] eqn:Hn; [by rewrite ?Hn|].
    destruct (m_Connected (mem s)) eqn:Hcd;
      destruct (connect_in_progress s) eqn:Hp; simpl in Hf;
      lifecycle_tac.
  - intros r s (Hr & Hw & Hc & Hf). unfold Connect_done.
    destruct (connSuspended (tasks s)) as [|n] eqn:Hn; [by rewrite ?Hn|].
    assert (connSpawned (tasks s) = 0 /\ n = 0) as [Hs ->] by lia.
    destruct r as [|[]]; try destruct (Path_IsEmpty _);
      destruct (m_Connected (mem s)) eqn:Hcd; lifecycle_tac.
Qed.

Lemma lifecycle_writer : writer_stable lifecycle.
Proof. split; intros; assumption. Qed.

Lemma lifecycle_reader : reader_stable lifecycle.
Proof. split; intros; assumption. Qed.

Lemma lifecycle_pop : pop_stable lifecycle.
Proof. intros item q s _ H. exact H. Qed.

Lemma lifecycle_reachable host port path password db evs s :
  run evs (RedisConnection host port path password db) = Some s -> lifecycle s.
Proof.
  apply run_invariant.
  - apply step_stable; auto using lifecycle_api, lifecycle_writer,
      lifecycle_reader, lifecycle_pop.
  - repeat split; simpl; lia.
Qed.

Lemma started_api : api_stable started.
Proof.
  split; unfold started; try (intros; assumption).
  - intros s H. unfold Start. rewrite H.
    by destruct (m_Connecting (mem s)).
  - intros queries s H. unfold FireAndForgetQueries. state_simpl.
    by rewrite log_queries_mem.
  - intros queries s H. unfold GetResultsOfQueries. state_simpl.
    by rewrite log_queries_mem.
  - intros s H. unfold Connect_begin. by destruct (connSpawned (tasks s)).
  - intros r s H. unfold Connect_done.
    destruct (connSuspended (tasks s)); [done|].
    destruct r as [|[]]; try destruct (Path_IsEmpty _); done.
Qed.

Lemma started_step ev s s' : started s -> step ev s = Some s' -> started s'.
Proof.
  apply step_stable; [apply started_api| | |]; try (split; intros; assumption).
  intros item q s0 _ H. exact H.
Qed.

Lemma Start_started s : started (Start s).
Proof.
  unfold started, Start.
  destruct (m_Started (mem s)) eqn:Hs; destruct (m_Connecting _) eqn:Hc;
    state_simpl; done.
Qed.

Lemma run_started evs s s' :
  run evs s = Some s' -> started s \/ In EvStart evs -> started s'.
Proof.
  revert s. induction evs as [|ev evs IH]; simpl; intros s Hrun Hs.
  - injection Hrun as <-. tauto.
  - destruct (step ev s) as [s1|] eqn:Hstep; [|done].
    apply (IH s1 Hrun).
    destruct Hs as [Hs|[->|Hin]]; eauto using started_step.
    left. injection Hstep as <-. apply Start_started.
Qed.

(** ** Coalescing *)














(** ** The promises of single replies and the [Deliver] units *)

Lemma slack_refl a : slack a a.
Proof. exists 0%N. lia. Qed.

Lemma size_t_wrap_slack x : slack x (size_t_wrap x).
Proof.
  exists (x / 2 ^ 64)%N. unfold size_t_wrap.
  rewrite (N.div_mod x (2 ^ 64)) at 1 by done. lia.
Qed.

Lemma units_append_or_extend_other a n act q :
  act <> a -> units a (append_or_extend n act q) = units a q.
Proof.
  intros Hne. unfold append_or_extend.
  destruct (last q) as [b|] eqn:Hl.
  - destruct (decide (Action b = act)) as [Hact|Hact].
    + rewrite (last_removelast q b Hl) at 2.
      rewrite !units_app. simpl. subst act.
      by destruct (decide (Action b = a)).
    + rewrite units_app. simpl. destruct (decide (act = a)); [done|lia].
  - rewrite units_app. simpl. destruct (decide (act = a)); [done|lia].
Qed.

Lemma units_append_or_extend_slack a n q :
  slack (units a q + n) (units a (append_or_extend n a q)).
Proof.
  unfold append_or_extend.
  destruct (last q) as [b|] eqn:Hl.
  - destruct (decide (Action b = a)) as [Hact|Hact].
    + rewrite (last_removelast q b Hl) at 1.
      rewrite !units_app. simpl.
      destruct (decide (Action b = a)); [|done].
      destruct (size_t_wrap_slack (Amount b + n)) as [k Hk].
      exists k. lia.
    + rewrite units_app. simpl. destruct (decide (a = a)); [|done].
      exists 0%N. lia.
  - rewrite units_app. simpl. destruct (decide (a = a)); [|done].
    exists 0%N. lia.
Qed.

Lemma size_snoc {A} (l : list A) x : size (l ++ [x]) = (size l + 1)%N.
Proof. unfold size. rewrite length_app. simpl. lia. Qed.

Lemma size_cons {A} (l : list A) x : size (x :: l) = (size l + 1)%N.
Proof. unfold size. simpl. lia. Qed.

Lemma slack_book_Deliver (rp : list Promise) q p c :
  slack (size rp) (units Deliver q + c) ->
  slack (size (rp ++ [p])) (units Deliver (append_or_extend 1 Deliver q) + c).
Proof.
  intros [k Hk]. destruct (units_append_or_extend_slack Deliver 1 q) as [m Hm].
  exists (k + m)%N. rewrite size_snoc. lia.
Qed.

Lemma promises_match_writer : writer_stable promises_match.
Proof.
  split; try (intros; assumption); unfold promises_match; intros; state_simpl.
  - rewrite units_append_or_extend_other by done. assumption.
  - destruct (reader (tasks s)); try done.
    + rewrite <- (N.add_0_r (units _ _)). apply slack_book_Deliver.
      by rewrite N.add_0_r.
    + rewrite <- (N.add_0_r (units _ _)). apply slack_book_Deliver.
      by rewrite N.add_0_r.
    + rewrite <- (N.add_0_r (units _ _)). apply slack_book_Deliver.
      by rewrite N.add_0_r.
    + destruct H. split; [done|]. by apply slack_book_Deliver.
    + rewrite <- (N.add_0_r (units _ _)). apply slack_book_Deliver.
      by rewrite N.add_0_r.
  - rewrite units_app. simpl. rewrite N.add_0_r. assumption.
Qed.

Ltac reader_flow_tac :=
  unfold promises_match, suspend_reader, set_result in *; state_simpl;
  repeat match goal with
         | |- context [promises (world ?s) !! ?p] =>
             destruct (promises (world s) !! p)
         end;
  simpl; state_simpl; try done.

Lemma read_Ignore_match i s :
  slack (size (ReplyPromises (m_Queues s)))
        (units Deliver (FutureResponseActions (m_Queues s))) ->
  flow_match (read_Ignore i s).
Proof.
  intros H. unfold read_Ignore. destruct (decide (i = 0%N)); reader_flow_tac.
Qed.

Lemma read_Ignore_done_match i r s :
  slack (size (ReplyPromises (m_Queues s)))
        (units Deliver (FutureResponseActions (m_Queues s))) ->
  flow_match (read_Ignore_done i r s).
Proof.
  intros H. unfold read_Ignore_done.
  destruct r as [|[]]; simpl; auto using read_Ignore_match.
Qed.

Lemma read_Deliver_match i s :
  slack (size (ReplyPromises (m_Queues s)))
        (units Deliver (FutureResponseActions (m_Queues s)) + i) ->
  flow_match (read_Deliver i s).
Proof.
  intros H. unfold read_Deliver.
  destruct (decide (i = 0%N)) as [->|Hi]; simpl.
  - by rewrite N.add_0_r in H.
  - destruct (ReplyPromises (m_Queues s)) as [|p rest] eqn:Hq; [done|].
    reader_flow_tac. split; [done|].
    destruct H as [k Hk]. exists k. rewrite size_cons in Hk. state_simpl. lia.
Qed.

Lemma read_Deliver_done_match i promise r s :
  i <> 0%N ->
  slack (size (ReplyPromises (m_Queues s)))
        (units Deliver (FutureResponseActions (m_Queues s)) + (i - 1)) ->
  flow_match (read_Deliver_done i promise r s).
Proof.
  intros Hi H. unfold read_Deliver_done.
  destruct r as [|[]]; simpl; try done;
    unfold set_result; destruct (promises (world s) !! promise); simpl;
    try done; by apply read_Deliver_match.
Qed.

Lemma read_DeliverBulk_match i promise replies s :
  slack (size (ReplyPromises (m_Queues s)))
        (units Deliver (FutureResponseActions (m_Queues s))) ->
  flow_match (read_DeliverBulk i promise replies s).
Proof.
  intros H. unfold read_DeliverBulk.
  destruct (decide (i = 0%N)); reader_flow_tac.
Qed.

Lemma read_DeliverBulk_done_match i promise replies r s :
  slack (size (ReplyPromises (m_Queues s)))
        (units Deliver (FutureResponseActions (m_Queues s))) ->
  flow_match (read_DeliverBulk_done i promise replies r s).
Proof.
  intros H. unfold read_DeliverBulk_done.
  destruct r as [|[]]; simpl; try done;
    try (unfold set_result; destruct (promises (world s) !! promise); simpl;
         try done);
    by apply read_DeliverBulk_match.
Qed.

Lemma ReadLoop_item_match item s :
  slack (size (ReplyPromises (m_Queues s)))
        (units Deliver (item :: FutureResponseActions (m_Queues s))) ->
  flow_match (ReadLoop_item item s).
Proof.
  simpl. intros H. unfold ReadLoop_item.
  destruct (Action item); simpl in H.
  - by apply read_Ignore_match.
  - apply read_Deliver_match.
    by rewrite (N.add_comm (units _ _)).
  - destruct (RepliesPromises (m_Queues s)); [done|].
    by apply read_DeliverBulk_match.
Qed.

Lemma FutureResponseActions_reader_stable q :
  reader_stable (fun s => FutureResponseActions (m_Queues s) = q).
Proof. split; intros; assumption. Qed.

Lemma ReadLoop_while_match q s :
  FutureResponseActions (m_Queues s) = q ->
  slack (size (ReplyPromises (m_Queues s))) (units Deliver q) ->
  flow_match (ReadLoop_while q s).
Proof.
  revert s. induction q as [|item q IH]; intros s Hq H; simpl.
  - unfold promises_match. state_simpl. by rewrite Hq.
  - pose proof (ReadLoop_item_match item (set_FutureResponseActions q s) H)
      as Hm.
    pose proof (ReadLoop_item_stable _ (FutureResponseActions_reader_stable q)
                  item (set_FutureResponseActions q s) eq_refl) as Hf.
    destruct (ReadLoop_item item _) as [s'|s'|e s'|]; simpl in *; try done.
    apply IH; [done|]. by rewrite <- Hf.
Qed.

Lemma ReadLoop_while_not_Next q s s' : ReadLoop_while q s <> Next s'.
Proof.
  revert s. induction q as [|item q IH]; intros s; simpl; [done|].
  destruct (ReadLoop_item item _); auto; done.
Qed.

Lemma reader_settle_match fl s' :
  flow_match fl -> reader_settle fl = Some s' -> promises_match s'.
Proof.
  unfold reader_settle, reader_continue. intros H.
  destruct fl as [s|s|e s|]; simpl in H.
  - by intros [= <-].
  - pose proof (ReadLoop_while_match _ s eq_refl H) as Hw.
    pose proof (ReadLoop_while_not_Next (FutureResponseActions (m_Queues s)) s)
      as Hn.
    destruct (ReadLoop_while _ s); simpl in Hw; intros [= <-];
      [done | by destruct (Hn _ eq_refl) | done].
  - by intros [= <-].
  - done.
Qed.

Lemma ReadLoop_wake_match r s s' :
  promises_match s -> ReadLoop_wake r s = Some s' -> promises_match s'.
Proof.
  intros H. unfold ReadLoop_wake.
  destruct (reader (tasks s)) eqn:Hpc; try (by intros [= <-]).
  destruct r.
  - destruct (m_QueuedReads (mem s)); [|by intros [= <-]].
    apply reader_settle_match. unfold promises_match in H.
    by rewrite Hpc in H.
  - by apply reader_settle_match.
Qed.

Lemma ReadLoop_read_match r s s' :
  promises_match s -> ReadLoop_read r s = Some s' -> promises_match s'.
Proof.
  intros H. unfold ReadLoop_read.
  destruct (reader (tasks s)) eqn:Hpc; try (by intros [= <-]);
    unfold promises_match in H; rewrite Hpc in H;
    apply reader_settle_match.
  - by apply read_Ignore_done_match.
  - destruct H. by apply read_Deliver_done_match.
  - by apply read_DeliverBulk_done_match.
Qed.

Lemma spawned_if_started_writer : writer_stable spawned_if_started.
Proof. split; intros; assumption. Qed.

Lemma reader_step_spawned r r' s s' :
  spawned_if_started s ->
  ReadLoop_wake r s = Some s' \/ ReadLoop_read r' s = Some s' ->
  spawned_if_started s'.
Proof.
  intros H Hstep. destruct (m_Started (mem s)) eqn:Hs.
  - assert (started s') as Hs'; [|intros ?; unfold started in *; congruence].
    destruct Hstep as [Hstep|Hstep].
    + eapply (started_step (EvReaderWake r)); eauto.
    + eapply (started_step (EvReadOne r')); eauto.
  - specialize (H Hs).
    unfold ReadLoop_wake, ReadLoop_read in Hstep. rewrite H in Hstep.
    destruct Hstep as [[= <-]|[= <-]]; by intros _.
Qed.

Lemma single_replies_step ev s s' :
  single_replies_inv s -> step ev s = Some s' -> single_replies_inv s'.
Proof.
  intros [Hm Hs]. unfold single_replies_inv, spawned_if_started.
  destruct ev; simpl; try (intros [= <-]).
  - unfold promises_match, spawned_if_started, Start in *.
    destruct (m_Started (mem s)) eqn:Hst.
    + destruct (m_Connecting (mem s)); state_simpl; by rewrite ?Hst.
    + rewrite (Hs eq_refl) in Hm. state_simpl.
      destruct (m_Connecting (mem s)); state_simpl; done.
  - done.
  - unfold promises_match, FireAndForgetQueries in *. state_simpl.
    by rewrite log_queries_tasks, log_queries_queues, log_queries_mem.
  - done.
  - unfold promises_match, GetResultsOfQueries in *. state_simpl.
    by rewrite log_queries_tasks, log_queries_queues, log_queries_mem.
  - unfold promises_match.
    by destruct (Connect_begin_frame s) as (-> & -> & _ & -> & _).
  - unfold promises_match.
    by destruct (Connect_done_frame r s) as (-> & -> & _ & -> & _).
  - intros Hstep. split.
    + eapply (WriteLoop_wake_stable _ promises_match_writer); eauto.
    + eapply (WriteLoop_wake_stable _ spawned_if_started_writer); eauto.
  - intros Hstep. split.
    + eapply (WriteLoop_written_stable _ promises_match_writer); eauto.
    + eapply (WriteLoop_written_stable _ spawned_if_started_writer); eauto.
  - intros Hstep. split; [by eapply ReadLoop_wake_match|].
    eapply (reader_step_spawned r (Raise forced_unwind)); eauto.
  - intros Hstep. split; [by eapply ReadLoop_read_match|].
    eapply (reader_step_spawned (Raise forced_unwind) r); eauto.
Qed.

(** ** No amount is zero unless a bulk is empty *)

Lemma total_app q q' : total (q ++ q') = (total q + total q')%N.
Proof. induction q as [|e q IH]; simpl; [done|]. rewrite IH. lia. Qed.

Lemma size_t_wrap_le x : (size_t_wrap x <= x)%N.
Proof. unfold size_t_wrap. apply N.Div0.mod_le. Qed.

Lemma total_append_or_extend n a q :
  (total (append_or_extend n a q) <= total q + n)%N.
Proof.
  unfold append_or_extend.
  destruct (last q) as [b|] eqn:Hl.
  - destruct (decide (Action b = a)).
    + rewrite (last_removelast q b Hl) at 2. rewrite !total_app. simpl.
      pose proof (size_t_wrap_le (Amount b + n)). lia.
    + rewrite total_app. simpl. lia.
  - rewrite total_app. simpl. lia.
Qed.

Lemma positive_append_or_extend n a q :
  positive q -> (0 < n)%N -> (total q + n < 2 ^ 64)%N ->
  positive (append_or_extend n a q).
Proof.
  unfold positive, append_or_extend. intros Hq Hn Hb.
  destruct (last q) as [b|] eqn:Hl.
  - destruct (decide (Action b = a)).
    + rewrite (last_removelast q b Hl) in Hq, Hb.
      apply Forall_app in Hq as [Hq _]. apply Forall_app. split; [done|].
      apply Forall_singleton. simpl. rewrite total_app in Hb. simpl in Hb.
      unfold size_t_wrap. rewrite N.mod_small by lia. lia.
    + apply Forall_app. split; [done|]. by apply Forall_singleton.
  - apply Forall_app. split; [done|]. by apply Forall_singleton.
Qed.

Lemma size_pos {A} (l : list A) : l <> [] -> (0 < size l)%N.
Proof. destruct l; [done|]. intros _. unfold size. simpl. lia. Qed.

Lemma budget_drop B q ws w w' : budget B q ws (w + w') -> budget B q ws w'.
Proof. intros (H1 & H2 & H3). split; [lia|by split]. Qed.

Lemma budget_book B q ws n a w :
  (0 < n)%N -> budget B q ws (n + w) -> budget B (append_or_extend n a q) ws w.
Proof.
  intros Hn (H1 & H2 & H3).
  pose proof (total_append_or_extend n a q). split; [lia|split; [done|]].
  intros HB. apply positive_append_or_extend; [auto|done|lia].
Qed.

Lemma budget_book_DeliverBulk B q ws n w :
  (0 < n)%N -> budget B q ws (n + w) ->
  budget B (q ++ [{| Amount := n; Action := DeliverBulk |}]) ws w.
Proof.
  intros Hn (H1 & H2 & H3). split; [|split; [done|]].
  - rewrite total_app. simpl. lia.
  - intros HB. apply Forall_app. split; [by apply H3|].
    by apply Forall_singleton.
Qed.

Ltac budget_tac :=
  unfold suspend_writer, set_result in *;
  repeat match goal with
         | |- context [promises (world ?s) !! ?p] =>
             destruct (promises (world s) !! p)
         end;
  cbn [flow_budget]; unfold budget_at in *; state_simpl;
  cbn [in_flight nonempty_pc]; destruct_and?;
  repeat match goal with
         | |- _ /\ _ => split
         end;
  eauto using budget_drop, budget_book, budget_book_DeliverBulk, size_pos.

Lemma write_GetResultsOfQueries_loop_budget B ws next item todo s :
  budget_at B ws (size item.1) s -> item.1 <> [] ->
  flow_budget B ws (write_GetResultsOfQueries_loop next item todo s).
Proof.
  intros H Hne. unfold write_GetResultsOfQueries_loop.
  destruct todo; budget_tac.
  apply budget_book_DeliverBulk; [by apply size_pos|].
  by rewrite N.add_0_r.
Qed.

Lemma budget_at_0 B ws w s : budget_at B ws w s -> budget_at B ws 0 s.
Proof.
  intros (H & ? & ?). split; [|done].
  apply (budget_drop _ _ _ w). by rewrite N.add_0_r.
Qed.

Lemma write_GetResultsOfQueries_done_budget B ws next item rest r s :
  budget_at B ws (size item.1) s -> item.1 <> [] ->
  flow_budget B ws (write_GetResultsOfQueries_done next item rest r s).
Proof.
  intros H Hne. unfold write_GetResultsOfQueries_done.
  destruct r as [|[]]; simpl;
    auto using write_GetResultsOfQueries_loop_budget;
    apply budget_at_0 in H; budget_tac.
Qed.

Lemma write_GetResultsOfQueries_budget B ws next s :
  budget_at B ws (weight4 next) s -> nonempty4 next ->
  flow_budget B ws (write_GetResultsOfQueries next s).
Proof.
  unfold write_GetResultsOfQueries, weight4, nonempty4.
  destruct (WriteQueueItem.GetResultsOfQueries next); simpl;
    auto using write_GetResultsOfQueries_loop_budget.
Qed.

Lemma write_GetResultOfQuery_done_budget B ws next item r s :
  budget_at B ws (1 + weight4 next) s -> nonempty4 next ->
  flow_budget B ws (write_GetResultOfQuery_done next item r s).
Proof.
  intros H Hne. unfold write_GetResultOfQuery_done.
  destruct r as [|[]]; simpl.
  - apply write_GetResultsOfQueries_budget; [|done]. budget_tac.
    by apply budget_book.
  - by apply budget_at_0 in H.
  - apply budget_at_0 in H; budget_tac.
  - apply budget_at_0 in H; budget_tac.
Qed.

Lemma write_GetResultOfQuery_budget B ws next s :
  budget_at B ws (weight3 next) s -> nonempty4 next ->
  flow_budget B ws (write_GetResultOfQuery next s).
Proof.
  unfold write_GetResultOfQuery, weight3.
  destruct (WriteQueueItem.GetResultOfQuery next); simpl.
  - intros H Hne. budget_tac.
  - by apply write_GetResultsOfQueries_budget.
Qed.

Lemma write_FireAndForgetQueries_loop_budget B ws next item i todo s :
  budget_at B ws (size item + weight3 next) s -> item <> [] ->
  nonempty4 next ->
  flow_budget B ws (write_FireAndForgetQueries_loop next item i todo s).
Proof.
  intros H Hne Hne4. unfold write_FireAndForgetQueries_loop.
  destruct todo; simpl; [|budget_tac].
  apply write_GetResultOfQuery_budget; [|done]. budget_tac.
Qed.

Lemma write_FireAndForgetQueries_done_budget B ws next item i rest r s :
  budget_at B ws (size item + weight3 next) s -> item <> [] ->
  nonempty4 next ->
  flow_budget B ws (write_FireAndForgetQueries_done next item i rest r s).
Proof.
  intros H Hne Hne4. unfold write_FireAndForgetQueries_done.
  destruct r as [|[]]; simpl;
    auto using write_FireAndForgetQueries_loop_budget;
    apply budget_at_0 in H; try done;
    destruct (item !! i); simpl; budget_tac.
Qed.

Lemma write_FireAndForgetQueries_budget B ws next s :
  budget_at B ws (weight2 next) s -> nonempty2 next ->
  flow_budget B ws (write_FireAndForgetQueries next s).
Proof.
  unfold write_FireAndForgetQueries, weight2, nonempty2.
  destruct (WriteQueueItem.FireAndForgetQueries next); simpl;
    intros H [Hne Hne4].
  - by apply write_FireAndForgetQueries_loop_budget.
  - by apply write_GetResultOfQuery_budget.
Qed.

Lemma write_FireAndForgetQuery_done_budget B ws next item r s :
  budget_at B ws (1 + weight2 next) s -> nonempty2 next ->
  flow_budget B ws (write_FireAndForgetQuery_done next item r s).
Proof.
  intros H Hne. unfold write_FireAndForgetQuery_done.
  destruct r as [|[]]; simpl.
  - apply write_FireAndForgetQueries_budget; [|done]. budget_tac.
    by apply budget_book.
  - by apply budget_at_0 in H.
  - apply budget_at_0 in H; budget_tac.
  - apply budget_at_0 in H; budget_tac.
Qed.

Lemma WriteLoop_item_budget B ws next s :
  budget_at B ws (weight next) s -> nonempty2 next ->
  flow_budget B ws (WriteLoop_item next s).
Proof.
  unfold WriteLoop_item, write_FireAndForgetQuery, weight.
  destruct (WriteQueueItem.FireAndForgetQuery next); simpl.
  - intros H Hne. budget_tac.
  - by apply write_FireAndForgetQueries_budget.
Qed.

Lemma flow_budget_amounts B ws fl : flow_budget B ws fl -> flow_amounts fl.
Proof.
  destruct fl as [s|s|e s|]; simpl; unfold amounts_inv; [| | |done].
  - intros [(H & <- & <-) Hne]. done.
  - intros (H & <- & <-). done.
  - intros (H & <- & <-). done.
Qed.

Lemma WriteLoop_while_budget B ws s :
  budget_at B ws 0 s -> flow_amounts (WriteLoop_while ws s).
Proof.
  revert s. induction ws as [|next ws IH]; intros s H; simpl.
  - unfold amounts_inv, budget_at. destruct H as (H & Hws & <-).
    state_simpl. rewrite Hws. done.
  - assert (budget_at B ws (weight next) (set_Writes ws s) /\ nonempty2 next)
      as [H1 Hne].
    { destruct H as ((H1 & H2 & H3) & Hws & HB).
      apply Forall_cons in H2 as [Hne H2]. simpl in H1.
      split; [|done]. split; [|done]. split; [state_simpl; lia|done]. }
    pose proof (WriteLoop_item_budget B ws next _ H1 Hne) as Hi.
    destruct (WriteLoop_item next _) as [s'|s'|e s'|];
      [by eapply flow_budget_amounts| |by eapply flow_budget_amounts|done].
    by apply IH.
Qed.

Lemma WriteLoop_while_not_Next ws s s' : WriteLoop_while ws s <> Next s'.
Proof.
  revert s. induction ws as [|next ws IH]; intros s; simpl; [done|].
  destruct (WriteLoop_item next _); auto; done.
Qed.

Lemma writer_settle_amounts B ws fl s' :
  flow_budget B ws fl -> writer_settle fl = Some s' -> amounts_inv s'.
Proof.
  unfold writer_settle, writer_continue. intros H.
  destruct fl as [s|s|e s|]; simpl in H.
  - intros [= <-]. by apply (flow_budget_amounts B ws (Suspend s)).
  - pose proof H as (_ & <- & _).
    pose proof (WriteLoop_while_budget B _ s H) as Hw.
    pose proof (WriteLoop_while_not_Next (Writes (m_Queues s)) s) as Hn.
    destruct (WriteLoop_while _ s); simpl in Hw; intros [= <-];
      [done | by destruct (Hn _ eq_refl) | done].
  - intros [= <-]. destruct H as (H & <- & <-). done.
  - done.
Qed.

Lemma WriteLoop_wake_amounts r s s' :
  amounts_inv s -> WriteLoop_wake r s = Some s' -> amounts_inv s'.
Proof.
  intros [H Hne]. unfold WriteLoop_wake.
  destruct (writer (tasks s)) eqn:Hpc; try (intros [= <-]; split; by rewrite ?Hpc).
  destruct r.
  - destruct (m_QueuedWrites (mem s));
      [|intros [= <-]; split; by rewrite ?Hpc].
    apply (writer_settle_amounts _ _ (Next s) s' H).
  - apply (writer_settle_amounts _ _ (Throw e s) s' H).
Qed.

Lemma WriteLoop_written_amounts r s s' :
  amounts_inv s -> WriteLoop_written r s = Some s' -> amounts_inv s'.
Proof.
  intros [H Hne]. unfold WriteLoop_written, writer_resume.
  destruct (writer (tasks s)) eqn:Hpc;
    try (intros [= <-]; split; by rewrite ?Hpc);
    simpl in H, Hne; eapply writer_settle_amounts.
  - by apply write_FireAndForgetQuery_done_budget.
  - destruct Hne. by apply write_FireAndForgetQueries_done_budget.
  - by apply write_GetResultOfQuery_done_budget.
  - by apply write_GetResultsOfQueries_done_budget.
Qed.

Lemma amounts_reader : reader_stable amounts_inv.
Proof. split; intros; assumption. Qed.

Lemma amounts_pop : pop_stable amounts_inv.
Proof.
  intros item q s Hq [((H1 & H2 & H3) & Hws & HB) Hne].
  unfold amounts_inv, budget_at, budget. state_simpl. rewrite Hq in H1, H3.
  simpl in H1. split; [|done]. split; [|done].
  split; [lia|]. split; [done|]. intros Hb. specialize (H3 Hb).
  by apply Forall_cons in H3 as [_ H3].
Qed.

Lemma queued_snoc ws item : queued (ws ++ [item]) = (queued ws + weight item)%N.
Proof. induction ws as [|w ws IH]; simpl; [lia|]. rewrite IH. lia. Qed.

Lemma budget_submit B q ws w item n :
  weight item = n -> nonempty2 item -> budget B q ws w ->
  budget (B + n) q (ws ++ [item]) w.
Proof.
  intros <- Hne (H1 & H2 & H3). split; [|split].
  - rewrite queued_snoc. lia.
  - apply Forall_app. split; [done|]. by apply Forall_singleton.
  - intros HB. apply H3. lia.
Qed.

Lemma amounts_Start s : amounts_inv s -> amounts_inv (Start s).
Proof.
  intros [((H1 & H2 & H3) & Hws & HB) Hne].
  unfold amounts_inv, budget_at, budget, Start.
  destruct (m_Started (mem s)); state_simpl;
    destruct (m_Connecting (mem s)); state_simpl;
    (split; [split; [split; [simpl; lia|by split]|done]|done]).
Qed.

Lemma amounts_step ev s s' :
  nonempty_submission ev -> amounts_inv s -> step ev s = Some s' ->
  amounts_inv s'.
Proof.
  intros Hev H. destruct ev; simpl in *; try (intros [= <-]).
  - by apply amounts_Start.
  - destruct H as [(H & Hws & HB) Hne].
    unfold amounts_inv, budget_at, FireAndForgetQuery. state_simpl.
    split; [|done]. split; [|done].
    by apply budget_submit.
  - destruct H as [(H & Hws & HB) Hne].
    unfold amounts_inv, budget_at, FireAndForgetQueries. state_simpl.
    rewrite log_queries_queues, log_queries_tasks.
    destruct (log_queries_world "Firing and forgetting query:" queries s)
      as (_ & _ & _ & _ & _ & _ & _ & _ & _ & ->).
    split; [|done]. split; [|done].
    apply budget_submit; [|done|done].
    unfold weight, weight2, weight3, weight4. simpl. lia.
  - destruct H as [(H & Hws & HB) Hne].
    unfold amounts_inv, budget_at, GetResultOfQuery. state_simpl.
    split; [|done]. split; [|done].
    by apply budget_submit.
  - destruct H as [(H & Hws & HB) Hne].
    unfold amounts_inv, budget_at, GetResultsOfQueries. state_simpl.
    rewrite log_queries_queues, log_queries_tasks.
    destruct (log_queries_world "Executing query:" queries s)
      as (_ & _ & _ & _ & _ & _ & _ & _ & _ & ->).
    split; [|done]. split; [|done].
    apply budget_submit; [|done|done].
    unfold weight, weight2, weight3, weight4. simpl. lia.
  - unfold amounts_inv, budget_at in *.
    by destruct (Connect_begin_frame s) as (-> & _ & -> & _ & ->).
  - unfold amounts_inv, budget_at in *.
    by destruct (Connect_done_frame r s) as (-> & _ & -> & _ & ->).
  - by apply WriteLoop_wake_amounts.
  - by apply WriteLoop_written_amounts.
  - by apply (ReadLoop_wake_stable _ amounts_reader amounts_pop).
  - by apply (ReadLoop_read_stable _ amounts_reader amounts_pop).
Qed.

(** ** No undefined behaviour *)

Lemma count_bulk_app q q' : count_bulk (q ++ q') = count_bulk q + count_bulk q'.
Proof.
  induction q as [|e q IH]; simpl; [done|]. rewrite IH.
  by destruct (decide (Action e = DeliverBulk)).
Qed.

Lemma count_bulk_append_or_extend n a q :
  a <> DeliverBulk -> count_bulk (append_or_extend n a q) = count_bulk q.
Proof.
  intros Ha. unfold append_or_extend.
  destruct (last q) as [b|] eqn:Hl.
  - destruct (decide (Action b = a)) as [Hact|Hact].
    + rewrite (last_removelast q b Hl) at 2. rewrite !count_bulk_app. simpl.
      done.
    + rewrite count_bulk_app. simpl.
      destruct (decide (a = DeliverBulk)); [done|lia].
  - rewrite count_bulk_app. simpl.
    destruct (decide (a = DeliverBulk)); [done|lia].
Qed.

Lemma bulk_writer : writer_stable bulk_inv.
Proof.
  split; try (intros; assumption); unfold bulk_inv; intros; state_simpl.
  - by rewrite count_bulk_append_or_extend.
  - by rewrite count_bulk_append_or_extend.
  - rewrite count_bulk_app, length_app. simpl. lia.
Qed.

Ltac reader_safe_tac :=
  unfold suspend_reader, set_result in *;
  repeat match goal with
         | |- context [promises (world ?s) !! ?p] =>
             destruct (promises (world s) !! p)
         end;
  simpl; unfold bulk_inv in *; state_simpl; try done.

Lemma read_Ignore_safe i s : bulk_inv s -> flow_safe (read_Ignore i s).
Proof.
  intros H. unfold read_Ignore. destruct (decide (i = 0%N)); reader_safe_tac.
Qed.

Lemma read_Ignore_done_safe i r s :
  bulk_inv s -> flow_safe (read_Ignore_done i r s).
Proof.
  intros H. unfold read_Ignore_done.
  destruct r as [|[]]; simpl; auto using read_Ignore_safe.
Qed.

Lemma read_Deliver_safe i s :
  bulk_inv s -> (i <> 0%N -> ReplyPromises (m_Queues s) <> []) ->
  flow_safe (read_Deliver i s).
Proof.
  intros H Hrp. unfold read_Deliver.
  destruct (decide (i = 0%N)); [done|].
  destruct (ReplyPromises (m_Queues s)); [by destruct Hrp|].
  reader_safe_tac.
Qed.

Lemma read_Deliver_done_safe i promise r s :
  bulk_inv s -> ((i - 1)%N <> 0%N -> ReplyPromises (m_Queues s) <> []) ->
  flow_safe (read_Deliver_done i promise r s).
Proof.
  intros H Hrp. unfold read_Deliver_done.
  destruct r as [|[]]; simpl; try done;
    unfold set_result; destruct (promises (world s) !! promise); simpl;
    try done; by apply read_Deliver_safe.
Qed.

Lemma read_DeliverBulk_safe i promise replies s :
  bulk_inv s -> flow_safe (read_DeliverBulk i promise replies s).
Proof.
  intros H. unfold read_DeliverBulk.
  destruct (decide (i = 0%N)); reader_safe_tac.
Qed.

Lemma read_DeliverBulk_done_safe i promise replies r s :
  bulk_inv s -> flow_safe (read_DeliverBulk_done i promise replies r s).
Proof.
  intros H. unfold read_DeliverBulk_done.
  destruct r as [|[]]; simpl; try done;
    try (unfold set_result; destruct (promises (world s) !! promise); simpl;
         try done);
    by apply read_DeliverBulk_safe.
Qed.

Lemma slack_nonempty (rp : list Promise) u i :
  slack (size rp) (u + i) -> i <> 0%N -> rp <> [].
Proof. intros [k Hk] Hi ->. unfold size in Hk. simpl in Hk. lia. Qed.

Lemma ReadLoop_item_safe item s :
  count_bulk (item :: FutureResponseActions (m_Queues s)) =
    length (RepliesPromises (m_Queues s)) ->
  slack (size (ReplyPromises (m_Queues s)))
        (units Deliver (item :: FutureResponseActions (m_Queues s))) ->
  flow_safe (ReadLoop_item item s).
Proof.
  simpl. intros Hb Hs. unfold ReadLoop_item.
  destruct (Action item); simpl in *.
  - by apply read_Ignore_safe.
  - apply read_Deliver_safe; [done|].
    rewrite N.add_comm in Hs. intros Hi. by apply slack_nonempty in Hs.
  - destruct (RepliesPromises (m_Queues s)) eqn:Hq; [done|].
    apply read_DeliverBulk_safe. unfold bulk_inv. state_simpl.
    simpl in Hb. lia.
Qed.

Lemma ReadLoop_while_safe q s :
  FutureResponseActions (m_Queues s) = q ->
  count_bulk q = length (RepliesPromises (m_Queues s)) ->
  slack (size (ReplyPromises (m_Queues s))) (units Deliver q) ->
  flow_safe (ReadLoop_while q s).
Proof.
  revert s. induction q as [|item q IH]; intros s Hq Hb Hs; simpl.
  - unfold bulk_inv. state_simpl. by rewrite Hq.
  - pose proof (ReadLoop_item_safe item (set_FutureResponseActions q s) Hb Hs)
      as Hsafe.
    pose proof (ReadLoop_item_match item (set_FutureResponseActions q s) Hs)
      as Hm.
    pose proof (ReadLoop_item_stable _ (FutureResponseActions_reader_stable q)
                  item (set_FutureResponseActions q s) eq_refl) as Hf.
    destruct (ReadLoop_item item _) as [s'|s'|e s'|]; simpl in *; try done.
    unfold bulk_inv in Hsafe. rewrite Hf in Hsafe, Hm. by apply IH.
Qed.

Lemma reader_settle_safe fl :
  flow_safe fl -> flow_match fl ->
  exists s', reader_settle fl = Some s' /\ bulk_inv s'.
Proof.
  unfold reader_settle, reader_continue. intros H Hm.
  destruct fl as [s|s|e s|]; simpl in *; [by eexists| |by eexists|done].
  pose proof (ReadLoop_while_safe _ s eq_refl H Hm) as Hw.
  destruct (ReadLoop_while _ s); simpl in Hw; [by eexists..|done].
Qed.

Lemma ReadLoop_wake_safe r s :
  bulk_inv s -> promises_match s ->
  exists s', ReadLoop_wake r s = Some s' /\ bulk_inv s'.
Proof.
  intros H Hm. unfold ReadLoop_wake. unfold promises_match in Hm.
  destruct (reader (tasks s)); try (by eexists).
  destruct r; [|by apply reader_settle_safe].
  destruct (m_QueuedReads (mem s)); [|by eexists].
  by apply reader_settle_safe.
Qed.

Lemma ReadLoop_read_safe r s :
  bulk_inv s -> promises_match s ->
  exists s', ReadLoop_read r s = Some s' /\ bulk_inv s'.
Proof.
  intros H Hm. unfold ReadLoop_read. unfold promises_match in Hm.
  destruct (reader (tasks s)); try (by eexists); apply reader_settle_safe.
  - by apply read_Ignore_done_safe.
  - by apply read_Ignore_done_match.
  - destruct Hm as [Hi Hs]. apply read_Deliver_done_safe; [done|].
    intros Hi'. by apply slack_nonempty in Hs.
  - destruct Hm. by apply read_Deliver_done_match.
  - by apply read_DeliverBulk_done_safe.
  - by apply read_DeliverBulk_done_match.
Qed.

Ltac writer_safe_tac :=
  unfold suspend_writer, set_result in *;
  repeat match goal with
         | |- context [promises (world ?s) !! ?p] =>
             destruct (promises (world s) !! p)
         end;
  simpl; try done.

Lemma write_GetResultsOfQueries_loop_safe next item todo s :
  flow_writer_safe (write_GetResultsOfQueries_loop next item todo s).
Proof. unfold write_GetResultsOfQueries_loop. destruct todo; writer_safe_tac. Qed.

Lemma write_GetResultsOfQueries_done_safe next item rest r s :
  flow_writer_safe (write_GetResultsOfQueries_done next item rest r s).
Proof.
  unfold write_GetResultsOfQueries_done.
  destruct r as [|[]]; auto using write_GetResultsOfQueries_loop_safe;
    writer_safe_tac.
Qed.

Lemma write_GetResultsOfQueries_safe next s :
  flow_writer_safe (write_GetResultsOfQueries next s).
Proof.
  unfold write_GetResultsOfQueries.
  destruct (WriteQueueItem.GetResultsOfQueries next);
    auto using write_GetResultsOfQueries_loop_safe; done.
Qed.

Lemma write_GetResultOfQuery_done_safe next item r s :
  flow_writer_safe (write_GetResultOfQuery_done next item r s).
Proof.
  unfold write_GetResultOfQuery_done.
  destruct r as [|[]]; auto using write_GetResultsOfQueries_safe;
    writer_safe_tac.
Qed.

Lemma write_GetResultOfQuery_safe next s :
  flow_writer_safe (write_GetResultOfQuery next s).
Proof.
  unfold write_GetResultOfQuery.
  destruct (WriteQueueItem.GetResultOfQuery next);
    auto using write_GetResultsOfQueries_safe; done.
Qed.

Lemma write_FireAndForgetQueries_loop_safe next item i todo s :
  i + length todo = length item ->
  flow_writer_safe (write_FireAndForgetQueries_loop next item i todo s).
Proof.
  intros Hi. unfold write_FireAndForgetQueries_loop.
  destruct todo; simpl in *; auto using write_GetResultOfQuery_safe.
Qed.

Lemma write_FireAndForgetQueries_done_safe next (item : list (list string))
    i rest r s :
  i + S (length rest) = length item ->
  flow_writer_safe (write_FireAndForgetQueries_done next item i rest r s).
Proof.
  intros Hi. unfold write_FireAndForgetQueries_done.
  destruct (lookup_lt_is_Some_2 item i ltac:(lia)) as [query Hq].
  rewrite Hq.
  destruct r as [|[]]; simpl; try done.
  apply write_FireAndForgetQueries_loop_safe. lia.
Qed.

Lemma write_FireAndForgetQueries_safe next s :
  flow_writer_safe (write_FireAndForgetQueries next s).
Proof.
  unfold write_FireAndForgetQueries.
  destruct (WriteQueueItem.FireAndForgetQueries next);
    auto using write_FireAndForgetQueries_loop_safe,
               write_GetResultOfQuery_safe.
Qed.

Lemma write_FireAndForgetQuery_done_safe next item r s :
  flow_writer_safe (write_FireAndForgetQuery_done next item r s).
Proof.
  unfold write_FireAndForgetQuery_done.
  destruct r as [|[]]; auto using write_FireAndForgetQueries_safe; done.
Qed.

Lemma WriteLoop_item_safe next s : flow_writer_safe (WriteLoop_item next s).
Proof.
  unfold WriteLoop_item, write_FireAndForgetQuery.
  destruct (WriteQueueItem.FireAndForgetQuery next);
    auto using write_FireAndForgetQueries_safe; done.
Qed.

Lemma WriteLoop_while_safe ws s : flow_writer_safe (WriteLoop_while ws s).
Proof.
  revert s. induction ws as [|next ws IH]; intros s; simpl; [done|].
  pose proof (WriteLoop_item_safe next (set_Writes ws s)) as Hi.
  destruct (WriteLoop_item next _); simpl in *; auto.
Qed.

Lemma writer_settle_safe fl :
  flow_writer_safe fl ->
  exists s', writer_settle fl = Some s' /\ writer_pc_ok (writer (tasks s')).
Proof.
  unfold writer_settle, writer_continue. intros H.
  destruct fl as [s|s|e s|]; simpl in *; [by eexists| |by eexists|done].
  pose proof (WriteLoop_while_safe (Writes (m_Queues s)) s) as Hw.
  pose proof (WriteLoop_while_not_Next (Writes (m_Queues s)) s) as Hn.
  destruct (WriteLoop_while _ s); simpl in Hw;
    [by eexists | by destruct (Hn _ eq_refl) | by eexists | done].
Qed.

Lemma WriteLoop_wake_safe r s :
  writer_pc_ok (writer (tasks s)) ->
  exists s', WriteLoop_wake r s = Some s' /\ writer_pc_ok (writer (tasks s')).
Proof.
  intros H. unfold WriteLoop_wake.
  destruct (writer (tasks s)) eqn:Hpc; try (eexists; split; [done|]; by rewrite Hpc).
  destruct r; [|by apply writer_settle_safe].
  destruct (m_QueuedWrites (mem s)); [by apply writer_settle_safe|].
  eexists; split; [done|]. by rewrite Hpc.
Qed.

Lemma WriteLoop_written_safe r s :
  writer_pc_ok (writer (tasks s)) ->
  exists s', WriteLoop_written r s = Some s' /\ writer_pc_ok (writer (tasks s')).
Proof.
  intros H. unfold WriteLoop_written, writer_resume.
  destruct (writer (tasks s)) eqn:Hpc;
    try (eexists; split; [done|]; by rewrite Hpc);
    apply writer_settle_safe;
    auto using write_FireAndForgetQuery_done_safe,
               write_FireAndForgetQueries_done_safe,
               write_GetResultOfQuery_done_safe,
               write_GetResultsOfQueries_done_safe.
Qed.

Lemma writer_pc_ok_api : api_stable (fun s => writer_pc_ok (writer (tasks s))).
Proof.
  split; try (intros; assumption).
  - intros s H. unfold Start.
    destruct (m_Started (mem s)); state_simpl;
      destruct (m_Connecting (mem s)); done.
  - intros queries s H. unfold FireAndForgetQueries. state_simpl.
    by rewrite log_queries_tasks.
  - intros queries s H. unfold GetResultsOfQueries. state_simpl.
    by rewrite log_queries_tasks.
  - intros s H. by destruct (Connect_begin_frame s) as (_ & _ & -> & _).
  - intros r s H. by destruct (Connect_done_frame r s) as (_ & _ & -> & _).
Qed.

Lemma writer_pc_ok_reader :
  reader_stable (fun s => writer_pc_ok (writer (tasks s))).
Proof. split; intros; assumption. Qed.

Lemma safe_step ev s :
  safe_inv s -> exists s', step ev s = Some s' /\ safe_inv s'.
Proof.
  intros (Hm & Hs & Hb & Hpc).
  assert (exists s', step ev s = Some s' /\ bulk_inv s' /\
                     writer_pc_ok (writer (tasks s'))) as (s' & Hstep & Hb' & Hpc').
  { destruct ev; simpl.
    - eexists; split; [done|]. split.
      + by apply (as_Start _ (wire_api (fun w => count_bulk w.1.1 = length w.2))).
      + by apply (as_Start _ writer_pc_ok_api).
    - by eexists.
    - eexists; split; [done|]. split.
      + by apply (as_FireAndForgetQueries _
                    (wire_api (fun w => count_bulk w.1.1 = length w.2))).
      + by apply (as_FireAndForgetQueries _ writer_pc_ok_api).
    - by eexists.
    - eexists; split; [done|]. split.
      + by apply (as_GetResultsOfQueries _
                    (wire_api (fun w => count_bulk w.1.1 = length w.2))).
      + by apply (as_GetResultsOfQueries _ writer_pc_ok_api).
    - eexists; split; [done|]. split.
      + by apply (as_Connect_begin _
                    (wire_api (fun w => count_bulk w.1.1 = length w.2))).
      + by apply (as_Connect_begin _ writer_pc_ok_api).
    - eexists; split; [done|]. split.
      + by apply (as_Connect_done _
                    (wire_api (fun w => count_bulk w.1.1 = length w.2))).
      + by apply (as_Connect_done _ writer_pc_ok_api).
    - destruct (WriteLoop_wake_safe r s Hpc) as (s' & Hstep & Hpc').
      exists s'. split; [done|]. split; [|done].
      by apply (WriteLoop_wake_stable _ bulk_writer r s s').
    - destruct (WriteLoop_written_safe r s Hpc) as (s' & Hstep & Hpc').
      exists s'. split; [done|]. split; [|done].
      by apply (WriteLoop_written_stable _ bulk_writer r s s').
    - destruct (ReadLoop_wake_safe r s Hb Hm) as (s' & Hstep & Hb').
      exists s'. split; [done|]. split; [done|].
      apply (ReadLoop_wake_stable _ writer_pc_ok_reader
               ltac:(by intros ????) r s s'); done.
    - destruct (ReadLoop_read_safe r s Hb Hm) as (s' & Hstep & Hb').
      exists s'. split; [done|]. split; [done|].
      apply (ReadLoop_read_stable _ writer_pc_ok_reader
               ltac:(by intros ????) r s s'); done. }
  exists s'. split; [done|].
  destruct (single_replies_step ev s s' (conj Hm Hs) Hstep). done.
Qed.

(** X1: no run of the connection has undefined behaviour: [front()] is
    never called on an empty queue (lines 194, 217 and 236), [item[i]]
    never out of range (lines 312 and 317). *)
Theorem run_defined host port path password db evs :
  exists s, run evs (RedisConnection host port path password db) = Some s.
Proof.
  assert (forall s, safe_inv s -> exists s', run evs s = Some s') as H.
  { induction evs as [|ev evs IH]; intros s Hs; simpl; [by eexists|].
    destruct (safe_step ev s Hs) as (s' & -> & Hs'). by apply IH. }
  apply H. repeat split; try done. apply slack_refl.
Qed.

(** ** Every promise has one holder, who signals it *)

Lemma occ_app p l l' : occ p (l ++ l') = occ p l + occ p l'.
Proof. induction l as [|x l IH]; simpl; [done|]. rewrite IH. lia. Qed.

Lemma writes_promises_app ws ws' :
  writes_promises (ws ++ ws') = writes_promises ws ++ writes_promises ws'.
Proof.
  induction ws as [|next ws IH]; simpl; [done|]. by rewrite IH, app_assoc.
Qed.

Ltac own_tac :=
  unfold writer_own, reader_own, own_inv, suspend_writer, suspend_reader in *;
  let p := fresh "p" in
  intros p;
  repeat match goal with
         | H : forall p : nat, own_at p _ _ _ |- _ => specialize (H p)
         end;
  repeat match goal with
         | H : writer (tasks ?s) = _ |- _ => rewrite H in *
         | H : reader (tasks ?s) = _ |- _ => rewrite H in *
         end;
  unfold own_at, occ_queues, writer_promises, reader_promises, reader_pending,
    item_promises3, item_promises4 in *;
  state_simpl;
  repeat match goal with
         | H : _ = _ :: _ |- _ => rewrite H in *
         | H : _ = Some _ |- _ => rewrite H in *
         | H : _ = None |- _ => rewrite H in *
         end;
  rewrite ?writes_promises_app in *; simpl writes_promises in *;
  unfold item_promises3, item_promises4 in *; simpl in *;
  repeat match goal with
         | H : context [match reader (tasks ?s) with _ => _ end] |- _ =>
             destruct (reader (tasks s))
         | |- context [match reader (tasks ?s) with _ => _ end] =>
             destruct (reader (tasks s))
         end;
  rewrite ?occ_app in *; simpl occ in *; rewrite ?occ_app in *;
  simpl occ in *;
  repeat match goal with
         | |- context [decide (?x = ?y)] => destruct (decide (x = y)); subst
         | H : context [decide (?x = ?y)] |- _ =>
             destruct (decide (x = y)); subst
         end;
  rewrite ?lookup_insert_eq, ?lookup_insert_ne in * by done;
  destruct_and?; split_and?; intros;
  repeat match goal with
         | H : ?a <= ?b -> _ |- _ =>
             first [ specialize (H ltac:(lia)) | clear H ]
         end;
  destruct_and?; split_and?;
  try lia; try congruence; try done.

Ltac writer_own_tac :=
  unfold set_result in *;
  repeat match goal with
         | |- context [promises (world ?s) !! ?p] =>
             let Hq := fresh "Hq" in destruct (promises (world s) !! p) eqn:Hq
         end;
  simpl; (split; [own_tac | state_simpl; done]).

Lemma writer_own_drop h h' s : writer_own (h ++ h') s -> writer_own h' s.
Proof. intros H. own_tac. Qed.

Lemma write_GetResultsOfQueries_loop_own ws next item todo s :
  writer_own [item.2] s -> Writes (m_Queues s) = ws ->
  flow_writer_own ws (write_GetResultsOfQueries_loop next item todo s).
Proof.
  intros H Hws. unfold write_GetResultsOfQueries_loop.
  destruct todo; writer_own_tac.
Qed.

Lemma write_GetResultsOfQueries_done_own ws next item rest r s :
  writer_own [item.2] s -> Writes (m_Queues s) = ws ->
  flow_writer_own ws (write_GetResultsOfQueries_done next item rest r s).
Proof.
  intros H Hws. unfold write_GetResultsOfQueries_done.
  destruct r as [|[]]; auto using write_GetResultsOfQueries_loop_own;
    writer_own_tac.
Qed.

Lemma write_GetResultsOfQueries_own ws next s :
  writer_own (item_promises4 next) s -> Writes (m_Queues s) = ws ->
  flow_writer_own ws (write_GetResultsOfQueries next s).
Proof.
  unfold write_GetResultsOfQueries, item_promises4.
  destruct (WriteQueueItem.GetResultsOfQueries next);
    auto using write_GetResultsOfQueries_loop_own. by split.
Qed.

Lemma write_GetResultOfQuery_done_own ws next item r s :
  writer_own (item.2 :: item_promises4 next) s -> Writes (m_Queues s) = ws ->
  flow_writer_own ws (write_GetResultOfQuery_done next item r s).
Proof.
  intros H Hws. unfold write_GetResultOfQuery_done.
  destruct r as [|[]]; [|writer_own_tac..].
  apply write_GetResultsOfQueries_own; [|done]. own_tac.
Qed.

Lemma write_GetResultOfQuery_own ws next s :
  writer_own (item_promises3 next) s -> Writes (m_Queues s) = ws ->
  flow_writer_own ws (write_GetResultOfQuery next s).
Proof.
  unfold write_GetResultOfQuery, item_promises3.
  destruct (WriteQueueItem.GetResultOfQuery next) eqn:Hi; intros H Hws.
  - writer_own_tac.
  - by apply write_GetResultsOfQueries_own.
Qed.

Lemma write_FireAndForgetQueries_loop_own ws next item i todo s :
  writer_own (item_promises3 next) s -> Writes (m_Queues s) = ws ->
  flow_writer_own ws (write_FireAndForgetQueries_loop next item i todo s).
Proof.
  intros H Hws. unfold write_FireAndForgetQueries_loop.
  destruct todo; [|writer_own_tac].
  apply write_GetResultOfQuery_own; [|done]. own_tac.
Qed.

Lemma write_FireAndForgetQueries_done_own ws next item i rest r s :
  writer_own (item_promises3 next) s -> Writes (m_Queues s) = ws ->
  flow_writer_own ws (write_FireAndForgetQueries_done next item i rest r s).
Proof.
  intros H Hws. unfold write_FireAndForgetQueries_done.
  destruct r as [|[]]; auto using write_FireAndForgetQueries_loop_own;
    try destruct (item !! i); try done; writer_own_tac.
Qed.

Lemma write_FireAndForgetQueries_own ws next s :
  writer_own (item_promises3 next) s -> Writes (m_Queues s) = ws ->
  flow_writer_own ws (write_FireAndForgetQueries next s).
Proof.
  unfold write_FireAndForgetQueries.
  destruct (WriteQueueItem.FireAndForgetQueries next);
    auto using write_FireAndForgetQueries_loop_own, write_GetResultOfQuery_own.
Qed.

Lemma write_FireAndForgetQuery_done_own ws next item r s :
  writer_own (item_promises3 next) s -> Writes (m_Queues s) = ws ->
  flow_writer_own ws (write_FireAndForgetQuery_done next item r s).
Proof.
  intros H Hws. unfold write_FireAndForgetQuery_done.
  destruct r as [|[]]; [|writer_own_tac..].
  apply write_FireAndForgetQueries_own; [|done]. own_tac.
Qed.

Lemma WriteLoop_item_own ws next s :
  writer_own (item_promises3 next) s -> Writes (m_Queues s) = ws ->
  flow_writer_own ws (WriteLoop_item next s).
Proof.
  unfold WriteLoop_item, write_FireAndForgetQuery.
  destruct (WriteQueueItem.FireAndForgetQuery next); intros H Hws.
  - writer_own_tac.
  - by apply write_FireAndForgetQueries_own.
Qed.

Lemma WriteLoop_while_own ws s :
  writer_own [] s -> Writes (m_Queues s) = ws ->
  exists ws', flow_writer_own ws' (WriteLoop_while ws s).
Proof.
  revert s. induction ws as [|next ws IH]; intros s H Hws; simpl.
  - exists []. split; [own_tac | state_simpl; done].
  - assert (writer_own (item_promises3 next) (set_Writes ws s)) as H1.
    { clear IH. own_tac. }
    pose proof (WriteLoop_item_own ws next _ H1 eq_refl) as Hi.
    destruct (WriteLoop_item next _) as [s'|s'|e s'|]; simpl in Hi;
      [by exists ws | | by exists ws | by exists ws].
    destruct Hi. by apply IH.
Qed.

Lemma writer_settle_own ws fl s' :
  flow_writer_own ws fl -> writer_settle fl = Some s' -> own_inv s'.
Proof.
  unfold writer_settle, writer_continue. intros H.
  destruct fl as [s|s|e s|]; simpl in H.
  - intros [= <-]. destruct H as [H _]. own_tac.
  - destruct H as [H Hws].
    destruct (WriteLoop_while_own _ s H eq_refl) as [ws' Hw].
    pose proof (WriteLoop_while_not_Next (Writes (m_Queues s)) s) as Hn.
    destruct (WriteLoop_while _ s); simpl in Hw; intros [= <-];
      [|by destruct (Hn _ eq_refl)|]; destruct Hw as [Hw _]; own_tac.
  - intros [= <-]. destruct H as [H _]. own_tac.
  - done.
Qed.

Lemma WriteLoop_wake_own r s s' :
  own_inv s -> WriteLoop_wake r s = Some s' -> own_inv s'.
Proof.
  intros H. unfold WriteLoop_wake.
  destruct (writer (tasks s)) eqn:Hpc; try (by intros [= <-]).
  assert (writer_own [] s) as H0 by own_tac.
  destruct r.
  - destruct (m_QueuedWrites (mem s)); [|by intros [= <-]].
    by apply (writer_settle_own (Writes (m_Queues s)) (Next s)).
  - by apply (writer_settle_own (Writes (m_Queues s)) (Throw e s)).
Qed.

Lemma WriteLoop_written_own r s s' :
  own_inv s -> WriteLoop_written r s = Some s' -> own_inv s'.
Proof.
  intros H. unfold WriteLoop_written, writer_resume.
  destruct (writer (tasks s)) eqn:Hpc; try (by intros [= <-]);
    apply (writer_settle_own (Writes (m_Queues s))).
  - apply write_FireAndForgetQuery_done_own; [|done].
    own_tac.
  - apply write_FireAndForgetQueries_done_own; [|done].
    own_tac.
  - apply write_GetResultOfQuery_done_own; [|done].
    own_tac.
  - apply write_GetResultsOfQueries_done_own; [|done].
    own_tac.
Qed.

(** The Reader. *)

Ltac reader_own_tac :=
  unfold set_result in *;
  repeat match goal with
         | |- context [promises (world ?s) !! ?p] =>
             let Hq := fresh "Hq" in destruct (promises (world s) !! p) eqn:Hq
         end;
  simpl; try done; own_tac.

Lemma read_Ignore_own i s :
  reader_own [] [] s -> flow_reader_own (read_Ignore i s).
Proof.
  intros H. unfold read_Ignore. destruct (decide (i = 0%N)); reader_own_tac.
Qed.

Lemma read_Ignore_done_own i r s :
  reader_own [] [] s -> flow_reader_own (read_Ignore_done i r s).
Proof.
  intros H. unfold read_Ignore_done.
  destruct r as [|[]]; auto using read_Ignore_own; reader_own_tac.
Qed.

Lemma read_Deliver_own i s :
  reader_own [] [] s -> flow_reader_own (read_Deliver i s).
Proof.
  intros H. unfold read_Deliver. destruct (decide (i = 0%N)); [done|].
  destruct (ReplyPromises (m_Queues s)) eqn:Hrp; [done|]. reader_own_tac.
Qed.

Lemma set_result_reader_own q c hp s :
  reader_own [q] hp s ->
  match set_result q c s with
  | Satisfied s' | AlreadySatisfied s' => reader_own [] [] s'
  end.
Proof. intros H. reader_own_tac. Qed.

Lemma read_Deliver_done_own i promise r s :
  reader_own [promise] [promise] s ->
  flow_reader_own (read_Deliver_done i promise r s).
Proof.
  intros H. unfold read_Deliver_done.
  destruct r as [|[]]; [| reader_own_tac | |].
  all: match goal with
       | |- context [set_result ?p ?c ?s] =>
           pose proof (set_result_reader_own p c _ s H);
           destruct (set_result p c s); simpl; auto using read_Deliver_own
       end.
Qed.

Lemma read_DeliverBulk_own i promise replies s :
  reader_own [promise] [] s ->
  flow_reader_own (read_DeliverBulk i promise replies s).
Proof.
  intros H. unfold read_DeliverBulk.
  destruct (decide (i = 0%N)); [|reader_own_tac].
  pose proof (set_result_reader_own promise (Values replies) _ s H).
  destruct (set_result _ _ s); done.
Qed.

Lemma set_exception_reader_own q c s :
  reader_own [q] [] s ->
  match set_result q c s with
  | Satisfied s' => reader_own [q] [] s'
  | AlreadySatisfied s' => reader_own [] [] s'
  end.
Proof. intros H. reader_own_tac. Qed.

Lemma read_DeliverBulk_done_own i promise replies r s :
  reader_own [promise] [] s ->
  flow_reader_own (read_DeliverBulk_done i promise replies r s).
Proof.
  intros H. unfold read_DeliverBulk_done.
  destruct r as [|[]]; [by apply read_DeliverBulk_own | reader_own_tac | |].
  all: match goal with
       | |- context [set_result ?p ?c ?s] =>
           pose proof (set_exception_reader_own p c s H);
           destruct (set_result p c s); simpl;
           auto using read_DeliverBulk_own
       end.
Qed.

Lemma ReadLoop_item_own item s :
  reader_own [] [] s -> flow_reader_own (ReadLoop_item item s).
Proof.
  intros H. unfold ReadLoop_item.
  destruct (Action item); auto using read_Ignore_own, read_Deliver_own.
  destruct (RepliesPromises (m_Queues s)) eqn:Hq; [done|].
  apply read_DeliverBulk_own. own_tac.
Qed.

Lemma ReadLoop_while_own q s :
  reader_own [] [] s -> flow_reader_own (ReadLoop_while q s).
Proof.
  revert s. induction q as [|item q IH]; intros s H; simpl.
  - own_tac.
  - pose proof (ReadLoop_item_own item (set_FutureResponseActions q s)
                  ltac:(clear IH; own_tac)) as Hi.
    destruct (ReadLoop_item item _); simpl in *; auto.
Qed.

Lemma reader_settle_own fl s' :
  flow_reader_own fl -> reader_settle fl = Some s' -> own_inv s'.
Proof.
  unfold reader_settle, reader_continue. intros H.
  destruct fl as [s|s|e s|]; simpl in H.
  - intros [= <-]. own_tac.
  - pose proof (ReadLoop_while_own (FutureResponseActions (m_Queues s)) s H)
      as Hw.
    pose proof (ReadLoop_while_not_Next (FutureResponseActions (m_Queues s)) s)
      as Hn.
    destruct (ReadLoop_while _ s); simpl in Hw; intros [= <-];
      [|by destruct (Hn _ eq_refl)|]; own_tac.
  - intros [= <-]. own_tac.
  - done.
Qed.

Lemma ReadLoop_wake_own r s s' :
  own_inv s -> ReadLoop_wake r s = Some s' -> own_inv s'.
Proof.
  intros H. unfold ReadLoop_wake.
  destruct (reader (tasks s)) eqn:Hpc; try (by intros [= <-]).
  assert (reader_own [] [] s) as H0 by own_tac.
  destruct r.
  - destruct (m_QueuedReads (mem s)); [|by intros [= <-]].
    by apply (reader_settle_own (Next s)).
  - by apply (reader_settle_own (Throw e s)).
Qed.

Lemma ReadLoop_read_own r s s' :
  own_inv s -> ReadLoop_read r s = Some s' -> own_inv s'.
Proof.
  intros H. unfold ReadLoop_read.
  destruct (reader (tasks s)) eqn:Hpc; try (by intros [= <-]);
    apply reader_settle_own.
  - apply read_Ignore_done_own. own_tac.
  - apply read_Deliver_done_own. own_tac.
  - apply read_DeliverBulk_done_own. own_tac.
Qed.

Lemma own_Start s : own_inv s -> own_inv (Start s).
Proof.
  intros H. unfold Start.
  destruct (m_Started (mem s)); state_simpl;
    destruct (m_Connecting (mem s)); try exact H;
    intros p; specialize (H p); unfold own_at, occ_queues in *;
    state_simpl; simpl; destruct H as (H1 & H2 & H3);
    (split; [lia|]); (split; [intros; apply H2; lia|]);
    intros Hn; destruct (H3 Hn); (split; [lia|done]).
Qed.

Lemma own_log_queries msg queries s :
  own_inv s -> own_inv (log_queries msg queries s).
Proof.
  intros H p. specialize (H p). unfold own_at, occ_queues in *.
  rewrite log_queries_tasks, log_queries_queues.
  by destruct (log_queries_world msg queries s) as (-> & _ & -> & _).
Qed.

Lemma own_step ev s s' : own_inv s -> step ev s = Some s' -> own_inv s'.
Proof.
  intros H. destruct ev; simpl; try (intros [= <-]).
  - by apply own_Start.
  - unfold FireAndForgetQuery. own_tac.
  - unfold FireAndForgetQueries.
    pose proof (own_log_queries "Firing and forgetting query:" queries s H).
    clear H. own_tac.
  - unfold GetResultOfQuery. own_tac.
  - unfold GetResultsOfQueries.
    pose proof (own_log_queries "Executing query:" queries s H) as H'.
    assert (nextPromise (world (log_queries "Executing query:" queries s)) =
            nextPromise (world s)) as Hn
      by (by destruct (log_queries_world "Executing query:" queries s)
            as (_ & _ & -> & _)).
    clear H. own_tac.
  - intros p. specialize (H p). unfold own_at, occ_queues in *.
    unfold Connect_begin. by destruct (connSpawned (tasks s)).
  - intros p. specialize (H p). unfold own_at, occ_queues in *.
    unfold Connect_done. destruct (connSuspended (tasks s)); [done|].
    destruct r as [|[]]; try destruct (Path_IsEmpty _); done.
  - by apply WriteLoop_wake_own.
  - by apply WriteLoop_written_own.
  - by apply ReadLoop_wake_own.
  - by apply ReadLoop_read_own.
Qed.

Lemma own_reachable host port path password db evs s :
  run evs (RedisConnection host port path password db) = Some s -> own_inv s.
Proof.
  apply run_invariant; [apply own_step|].
  intros p. unfold own_at, occ_queues. simpl.
  split; [lia|]. split; [lia|]. intros _. split; [done|apply lookup_empty].
Qed.

Lemma safe_reachable host port path password db evs s :
  run evs (RedisConnection host port path password db) = Some s -> safe_inv s.
Proof.
  apply run_invariant.
  - intros ev s0 s1 H0 Hstep.
    destruct (safe_step ev s0 H0) as (s2 & Hstep' & H2). congruence.
  - repeat split; try done. apply slack_refl.
Qed.

(** ** The claims of the specification *)

(** C1: in every state the connection can reach with the Reader between
    two entries (in [Wait], or not yet spawned), the amounts of the
    [Deliver] entries add up to the number of promises of single replies
    that are pending.  Inside a [Deliver] entry, the Reader in the read
    for which [i] counts down, the promise of that read is popped and
    [i - 1] promises more than the [Deliver] units are pending: one promise
    per unit.  (The number of pending promises fits [size_t], as the size
    of a container does.) *)
Theorem Deliver_units_match_ReplyPromises host port path password db evs s :
  run evs (RedisConnection host port path password db) = Some s ->
  (size (ReplyPromises (m_Queues s)) < 2 ^ 64)%N ->
  (reader_mid_step s = false ->
   units Deliver (FutureResponseActions (m_Queues s)) =
   size (ReplyPromises (m_Queues s))) /\
  (forall i promise,
     reader (tasks s) = RDeliver i promise ->
     i <> 0%N /\
     (units Deliver (FutureResponseActions (m_Queues s)) + (i - 1))%N =
     size (ReplyPromises (m_Queues s))).
Proof.
  intros Hrun Hsize.
  assert (single_replies_inv s) as [Hm _].
  { revert Hrun. apply run_invariant; [apply single_replies_step|].
    split; [|done]. apply slack_refl. }
  unfold promises_match, reader_mid_step in *. split.
  - intros Hmid.
    destruct (reader (tasks s)); try done; destruct Hm as [k Hk]; nia.
  - intros i promise Hpc. rewrite Hpc in Hm. destruct Hm as [Hi [k Hk]].
    split; [done|]. nia.
Qed.

Lemma Deliver_units_match_ReplyPromises_witness :
  units Deliver (FutureResponseActions (m_Queues (after mixed_sent))) = 1%N /\
  size (ReplyPromises (m_Queues (after mixed_sent))) = 1%N.
Proof.
  destruct (Deliver_units_match_ReplyPromises "localhost" 6379 "" "" 0
              mixed_sent (after mixed_sent)
              ltac:(vm_compute; reflexivity) ltac:(vm_compute; reflexivity))
    as [H _].
  split; [rewrite H|]; vm_compute; reflexivity.
Defined.

(** C2, at the failing input: an [Ignore] entry of amount 2 whose first read
    fails with a [std::exception].  The failure is logged, then the Reader
    leaves the entry: it is back in [Wait] with the queue empty, and
    [ReadOne] has been called once, not twice. *)
Theorem ReadLoop_Ignore_failure_leaves_entry :
  reader (tasks (after ignore2_reading)) = RIgnore 2 /\
  nReadOne (world (after ignore2_reading)) = 1 /\
  exists s',
    ReadLoop_read (Raise (std_exception "Connection reset by peer"))
      (after ignore2_reading) = Some s' /\
    reader (tasks s') = RWait /\
    FutureResponseActions (m_Queues s') = [] /\
    nReadOne (world s') = 1 /\
    length (log (world s')) = S (length (log (world (after ignore2_reading)))).
Proof.
  split; [vm_compute; reflexivity|].
  split; [vm_compute; reflexivity|].
  eexists. split; [vm_compute; reflexivity|].
  repeat split.
Qed.

(** The same at every state: whatever the counter, a failed read of an
    [Ignore] entry ends the entry. *)
Lemma read_Ignore_done_failure i what s :
  read_Ignore_done i (Raise (std_exception what)) s =
  Next (Log LogCritical "RedisWriter"
          ("Error during receiving the response to a query which has been fired and forgotten: "
           +:+ what) s).
Proof. reflexivity. Qed.








(** C6, at the failing input: a [DeliverBulk] entry of amount 2 whose first
    read fails with a [std::exception] and whose second read succeeds.  The
    promise takes the exception and the second read is made, but then
    [set_value] is called on the promise all the same: the promise is
    signalled twice, and the [std::future_error] of the second call ends
    the Reader Loop. *)
Theorem ReadLoop_DeliverBulk_failure_signals_twice :
  reader (tasks (after bulk2_reading)) = RDeliverBulk 2 0 [] /\
  exists s',
    run [EvReadOne (Raise (std_exception "Connection reset by peer"));
         EvReadOne (Ret NilReply)] (after bulk2_reading) = Some s' /\
    promises (world s') !! 0 =
      Some (Failed (std_exception "Connection reset by peer")) /\
    nReadOne (world s') = 2 /\
    signals (world s') =
      [(0, Failed (std_exception "Connection reset by peer"));
       (0, Values [NilReply])] /\
    reader (tasks s') = RTerminated future_error.
Proof.
  split; [vm_compute; reflexivity|].
  eexists. split; [vm_compute; reflexivity|].
  repeat split.
Qed.

(** When a second read of the entry fails too, the second [set_exception]
    throws inside the handler: of three reads, the third is never made. *)
Lemma ReadLoop_DeliverBulk_second_failure_ends_reader :
  reader (tasks (after bulk3_reading)) = RDeliverBulk 3 0 [] /\
  exists s',
    run [EvReadOne (Raise (std_exception "Connection reset by peer"));
         EvReadOne (Raise (std_exception "Connection reset by peer"))]
      (after bulk3_reading) = Some s' /\
    nReadOne (world s') = 2 /\
    reader (tasks s') = RTerminated future_error.
Proof.
  split; [vm_compute; reflexivity|].
  eexists. split; [vm_compute; reflexivity|].
  repeat split.
Qed.

(** After a failed read the last read of a [DeliverBulk] entry always ends
    in the second signal, at every state. *)
Lemma read_DeliverBulk_set_value_after_exception promise replies e r s :
  promises (world s) !! promise = Some (Failed e) ->
  exists s',
    read_DeliverBulk_done 1 promise replies r s = Throw (match r with
      | Raise forced_unwind => forced_unwind | _ => future_error end) s'.
Proof.
  intros Hp. unfold read_DeliverBulk_done.
  destruct r as [reply|[]]; [| by eexists | |];
    unfold read_DeliverBulk, set_result; simpl; rewrite ?Hp; by eexists.
Qed.



(** C8, as the code has it: whatever happened on the connection, the two
    loops have been spawned exactly once as soon as [Start] has been
    called, and a further call spawns none.  The Connector is another
    matter: a call of [Start] spawns it unless a connect attempt is under
    way or the connection is established; after a failed attempt the next
    call spawns it again. *)
Theorem Start_spawns host port path password db evs s :
  run evs (RedisConnection host port path password db) = Some s ->
  (In EvStart evs ->
     readLoopSpawns (world s) = 1 /\ writeLoopSpawns (world s) = 1) /\
  readLoopSpawns (world (Start s)) = 1 /\
  writeLoopSpawns (world (Start s)) = 1 /\
  connectSpawns (world (Start s)) =
    (if connect_in_progress s || m_Connected (mem s)
     then connectSpawns (world s) else S (connectSpawns (world s))).
Proof.
  intros Hrun.
  pose proof (lifecycle_reachable _ _ _ _ _ _ _ Hrun) as Hl.
  pose proof (as_Start _ lifecycle_api s Hl) as (Hr' & Hw' & _).
  pose proof (Start_started s) as Hs'. unfold started in Hs'.
  rewrite Hs' in Hr', Hw'.
  split; [|split; [done|split; [done|]]].
  - intros Hin.
    assert (started s) as Hs by (eapply run_started; eauto).
    destruct Hl as (Hr & Hw & _). unfold started in Hs.
    by rewrite Hs in Hr, Hw.
  - destruct Hl as (_ & _ & _ & Hf). rewrite <- Hf. unfold Start.
    destruct (m_Started (mem s)); state_simpl;
      destruct (m_Connecting (mem s)); done.
Qed.

Lemma Start_spawns_witness :
  readLoopSpawns (world (after start_after_refusal)) = 1 /\
  writeLoopSpawns (world (after start_after_refusal)) = 1 /\
  connectSpawns (world (Start (after start_after_refusal))) = 2.
Proof.
  destruct (Start_spawns "localhost" 6379 "" "" 0 start_after_refusal
              (after start_after_refusal) ltac:(vm_compute; reflexivity))
    as (Hl & _ & _ & Hc).
  destruct Hl as [Hr Hw]; [simpl; tauto|].
  split; [exact Hr|]. split; [exact Hw|]. rewrite Hc. vm_compute. reflexivity.
Defined.

(** C8 as the specification states it fails: once the first connect
    attempt has been refused, the second call of [Start] spawns the
    Connector a second time. *)
Lemma Start_spawns_Connect_again :
  run start_after_refusal conn0 = Some (after start_after_refusal) /\
  connectSpawns (world (after [EvStart])) = 1 /\
  connectSpawns (world (after start_after_refusal)) = 2 /\
  connectSpawns (world (after start_after_refusal)) <> 1.
Proof. vm_compute. repeat split; discriminate. Qed.

(** C9, as the code has it: the amounts are sizes, and the size of an empty
    bulk is zero.  In every run in which no bulk submitted is empty, every
    entry of every state reached has a strictly positive amount (the
    queries submitted being fewer than 2^64, so that no amount has
    wrapped). *)
Theorem Amounts_positive host port path password db evs s :
  run evs (RedisConnection host port path password db) = Some s ->
  Forall nonempty_submission evs ->
  (nSubmitted (world s) < 2 ^ 64)%N ->
  Forall (fun e => (0 < Amount e)%N) (FutureResponseActions (m_Queues s)).
Proof.
  intros Hrun Hevs HB.
  assert (amounts_inv s) as [((_ & _ & H) & _) _]; [|by apply H].
  revert Hrun. apply (run_invariant_on nonempty_submission); [|done|].
  - intros ev s0 s1 Hev H0 Hstep. by eapply amounts_step.
  - split; [|done]. split; [|done]. split; [simpl; lia|].
    split; [done|]. intros _. constructor.
Qed.

Lemma Amounts_positive_witness :
  Forall (fun e => (0 < Amount e)%N)
         (FutureResponseActions (m_Queues (after mixed_sent))).
Proof.
  apply (Amounts_positive "localhost" 6379 "" "" 0 mixed_sent).
  - vm_compute. reflexivity.
  - repeat constructor; discriminate.
  - vm_compute. reflexivity.
Defined.

(** C9 as the specification states it fails: the Writer books an awaited
    bulk without queries, and a fired bulk without queries, as an entry of
    amount zero. *)
Lemma empty_bulk_zero_amount :
  run empty_bulk_written conn0 = Some (after empty_bulk_written) /\
  FutureResponseActions (m_Queues (after empty_bulk_written)) =
    [{| Amount := 0; Action := DeliverBulk |}] /\
  run empty_fire_written conn0 = Some (after empty_fire_written) /\
  FutureResponseActions (m_Queues (after empty_fire_written)) =
    [{| Amount := 0; Action := Ignore |}] /\
  ~ Forall (fun e => (0 < Amount e)%N)
      (FutureResponseActions (m_Queues (after empty_bulk_written))).
Proof.
  repeat (split; [vm_compute; reflexivity|]).
  intros H. apply Forall_cons in H as [H _]. vm_compute in H. discriminate.
Qed.

(** C10: the connection is in a state it can reach, the Writer and the
    Reader are both in [Wait] and no item and no entry is queued.
    [GetResultsOfQueries] with no query creates a promise; the Writer,
    woken, calls [WriteOne] not once and enqueues the promise and an entry
    of amount zero; the Reader, woken, calls [ReadOne] not once and gives
    the promise the empty list of replies as its value.  Both loops are
    back in [Wait] with empty queues. *)
Theorem GetResultsOfQueries_empty host port path password db evs s :
  run evs (RedisConnection host port path password db) = Some s ->
  writer (tasks s) = WWait -> reader (tasks s) = RWait ->
  Writes (m_Queues s) = [] ->
  FutureResponseActions (m_Queues s) = [] ->
  let promise := nextPromise (world s) in
  exists s1 s2,
    WriteLoop_wake (Ret ()) (GetResultsOfQueries [] s) = Some s1 /\
    nWriteOne (world s1) = nWriteOne (world s) /\
    FutureResponseActions (m_Queues s1) =
      [{| Amount := 0; Action := DeliverBulk |}] /\
    RepliesPromises (m_Queues s1) = [promise] /\
    m_QueuedReads (mem s1) = true /\
    promises (world s1) !! promise = None /\
    ReadLoop_wake (Ret ()) s1 = Some s2 /\
    nReadOne (world s2) = nReadOne (world s) /\
    promises (world s2) !! promise = Some (Values []) /\
    signals (world s2) = signals (world s) ++ [(promise, Values [])] /\
    FutureResponseActions (m_Queues s2) = [] /\
    RepliesPromises (m_Queues s2) = [] /\
    writer (tasks s2) = WWait /\ reader (tasks s2) = RWait.
Proof.
  intros Hrun Hw Hr Hws Hfra promise. subst promise.
  assert (RepliesPromises (m_Queues s) = []) as Hrp.
  { pose proof (safe_reachable _ _ _ _ _ _ _ Hrun) as (_ & _ & Hb & _).
    unfold bulk_inv in Hb. rewrite Hfra in Hb. simpl in Hb.
    by destruct (RepliesPromises (m_Queues s)). }
  assert (promises (world s) !! nextPromise (world s) = None) as Hp.
  { pose proof (own_reachable _ _ _ _ _ _ _ Hrun (nextPromise (world s)))
      as (_ & _ & H).
    by destruct (H ltac:(lia)). }
  eexists. eexists.
  split.
  { unfold WriteLoop_wake, GetResultsOfQueries. simpl. rewrite Hw. simpl.
    unfold writer_settle, writer_continue. state_simpl. rewrite Hws. simpl.
    reflexivity. }
  state_simpl. rewrite Hfra, Hrp. simpl.
  repeat (split; [done|]).
  split.
  { unfold ReadLoop_wake. state_simpl. rewrite Hr.
    unfold reader_settle, reader_continue. state_simpl. simpl.
    unfold ReadLoop_item. state_simpl.
    unfold read_DeliverBulk, set_result. simpl. state_simpl.
    rewrite Hp. simpl. reflexivity. }
  state_simpl. rewrite lookup_insert_eq. done.
Qed.

Lemma GetResultsOfQueries_empty_witness :
  exists s1 s2,
    WriteLoop_wake (Ret ()) (GetResultsOfQueries [] (after [EvStart])) = Some s1 /\
    nWriteOne (world s1) = 0 /\
    ReadLoop_wake (Ret ()) s1 = Some s2 /\
    nReadOne (world s2) = 0 /\
    promises (world s2) !! 0 = Some (Values []).
Proof.
  destruct (GetResultsOfQueries_empty "localhost" 6379 "" "" 0 [EvStart]
              (after [EvStart]) eq_refl eq_refl eq_refl eq_refl eq_refl)
    as (s1 & s2 & H1 & Hn1 & _ & _ & _ & _ & H2 & Hn2 & Hp & _).
  exists s1, s2. repeat split; assumption.
Defined.

(** ** Further properties of the code

    *** The queues of promises *)

(** X2: in every state the connection can reach, the [DeliverBulk]
    entries of [FutureResponseActions] are as many as the promises in
    [RepliesPromises]: the [front()] of line 236 always has its promise. *)
Theorem DeliverBulk_entries_match_RepliesPromises host port path password db
    evs s :
  run evs (RedisConnection host port path password db) = Some s ->
  count_bulk (FutureResponseActions (m_Queues s)) =
  length (RepliesPromises (m_Queues s)).
Proof.
  intros Hrun.
  by pose proof (safe_reachable _ _ _ _ _ _ _ Hrun) as (_ & _ & Hb & _).
Qed.

Lemma DeliverBulk_entries_match_RepliesPromises_witness :
  count_bulk (FutureResponseActions (m_Queues (after mixed_sent))) = 1 /\
  length (RepliesPromises (m_Queues (after mixed_sent))) = 1.
Proof.
  pose proof (DeliverBulk_entries_match_RepliesPromises "localhost" 6379 "" ""
                0 mixed_sent (after mixed_sent)
                ltac:(vm_compute; reflexivity)) as H.
  split; [rewrite H|]; vm_compute; reflexivity.
Defined.

Lemma occ_elem_of p l : p ∈ l -> 1 <= occ p l.
Proof.
  induction 1 as [x l|x y l Hin IH]; simpl.
  - destruct (decide (x = x)); [lia|done].
  - lia.
Qed.

Lemma occ_NoDup l : (forall p, occ p l <= 1) -> NoDup l.
Proof.
  induction l as [|x l IH]; intros H; [constructor|].
  apply NoDup_cons. split.
  - intros Hin. apply occ_elem_of in Hin. specialize (H x). simpl in H.
    destruct (decide (x = x)); [lia|done].
  - apply IH. intros p. specialize (H p). simpl in H. lia.
Qed.

(** X3: the promises waiting in [ReplyPromises], in [RepliesPromises] and
    in the items of [Writes] are pairwise distinct, none of them has a
    result yet, and each was created by a call of [GetResultOfQuery] or
    [GetResultsOfQueries]. *)
Theorem pending_promises_distinct_unsignalled host port path password db
    evs s :
  run evs (RedisConnection host port path password db) = Some s ->
  let pending := ReplyPromises (m_Queues s) ++ RepliesPromises (m_Queues s) ++
                 writes_promises (Writes (m_Queues s)) in
  NoDup pending /\
  forall p, p ∈ pending ->
    promises (world s) !! p = None /\ p < nextPromise (world s).
Proof.
  intros Hrun pending.
  pose proof (own_reachable _ _ _ _ _ _ _ Hrun) as Hown.
  assert (forall p, occ p pending = occ_queues p s) as Hocc.
  { intros p. unfold pending, occ_queues. rewrite !occ_app. lia. }
  split.
  - apply occ_NoDup. intros p. rewrite Hocc.
    destruct (Hown p) as (H & _). lia.
  - intros p Hin. apply occ_elem_of in Hin. rewrite Hocc in Hin.
    destruct (Hown p) as (_ & H2 & H3). split; [apply H2; lia|].
    destruct (decide (p < nextPromise (world s))) as [|Hn]; [done|].
    destruct (H3 ltac:(lia)). lia.
Qed.

Lemma pending_promises_distinct_unsignalled_witness :
  NoDup (ReplyPromises (m_Queues (after mixed_sent)) ++
         RepliesPromises (m_Queues (after mixed_sent)) ++
         writes_promises (Writes (m_Queues (after mixed_sent)))) /\
  promises (world (after mixed_sent)) !! 0 = None.
Proof.
  destruct (pending_promises_distinct_unsignalled "localhost" 6379 "" "" 0
              mixed_sent (after mixed_sent) ltac:(vm_compute; reflexivity))
    as [Hn Hp].
  split; [exact Hn|]. apply Hp. vm_compute. apply list_elem_of_here.
Defined.

(** *** [LogQuery] *)

Lemma LogQuery_from_take i (query : list string) :
  i <= 7 ->
  LogQuery_from i query =
  quoted_args (take (7 - i) query)
    (if decide (i + length query <= 7) then "" else " ...").
Proof.
  revert i. induction query as [|arg query IH]; intros i Hi; simpl.
  - rewrite take_nil. simpl. destruct (decide (i + 0 <= 7)); [done|lia].
  - destruct (decide (S i = 8)) as [Hi8|Hi8].
    + replace (7 - i) with 0 by lia. simpl.
      destruct (decide (i + S (length query) <= 7)); [lia|done].
    + replace (7 - i) with (S (7 - S i)) by lia. simpl.
      rewrite IH by lia.
      destruct (decide (S i + length query <= 7)),
               (decide (i + S (length query) <= 7)); try lia; done.
Qed.

(** X4: [LogQuery] writes the first seven arguments of a query, each
    after a blank and between single quotes, and [" ..."] after them when
    the query has more than seven. *)
Theorem LogQuery_first_seven (query : list string) :
  LogQuery query =
  quoted_args (take 7 query)
    (if decide (length query <= 7) then "" else " ...").
Proof. unfold LogQuery. by rewrite LogQuery_from_take by lia. Qed.

(** *** A failed send of an awaited bulk, a failed read of an awaited
    reply *)

(** X5: when a [WriteOne] of an awaited bulk fails with anything but the
    forced unwind, the promise of the bulk, which had no result, takes the
    exception; nothing is logged, no entry is booked, the flags are as
    they were, and the Writer goes on with the next item (lines
    354-366). *)
Theorem GetResultsOfQueries_send_failure host port path password db evs s
    next item rest e :
  run evs (RedisConnection host port path password db) = Some s ->
  writer (tasks s) = WGetResultsOfQueries next item rest ->
  e <> forced_unwind ->
  exists s',
    writer_resume (Raise e) s = Some (Next s') /\
    promises (world s) !! item.2 = None /\
    promises (world s') !! item.2 = Some (Failed e) /\
    signals (world s') = signals (world s) ++ [(item.2, Failed e)] /\
    log (world s') = log (world s) /\
    m_Queues s' = m_Queues s /\ mem s' = mem s.
Proof.
  intros Hrun Hpc He.
  assert (promises (world s) !! item.2 = None) as Hp.
  { pose proof (own_reachable _ _ _ _ _ _ _ Hrun item.2) as (_ & H & _).
    apply H. rewrite Hpc, occ_app. simpl.
    destruct (decide (item.2 = item.2)); [lia|done]. }
  unfold writer_resume. rewrite Hpc.
  unfold write_GetResultsOfQueries_done, set_result. rewrite Hp.
  destruct e; [done| |];
    (eexists; split; [reflexivity|]; state_simpl; rewrite lookup_insert_eq;
     done).
Qed.

Lemma GetResultsOfQueries_send_failure_witness :
  exists s',
    writer_resume (Raise unknown_exception) (after bulk2_second_send)
    = Some (Next s') /\
    promises (world s') !! 0 = Some (Failed unknown_exception).
Proof.
  destruct (GetResultsOfQueries_send_failure "localhost" 6379 "" "" 0
              bulk2_second_send (after bulk2_second_send)
              (AwaitBulk [["GET"; "a"]; ["GET"; "b"]] 0)
              ([["GET"; "a"]; ["GET"; "b"]], 0) [] unknown_exception
              ltac:(vm_compute; reflexivity) ltac:(vm_compute; reflexivity)
              ltac:(discriminate))
    as (s' & H1 & _ & H2 & _).
  exists s'. split; assumption.
Defined.

(** X10: when the [ReadOne] for an awaited reply fails with anything but
    the forced unwind, the promise popped for it, which had no result,
    takes the exception; nothing is logged, the queues are as they were,
    and the [for] loop goes on with the reads left for the entry: if there
    are any, the next promise is popped and the Reader is in [ReadOne]
    again (lines 216-229). *)
Theorem ReadLoop_Deliver_failure host port path password db evs s i promise e :
  run evs (RedisConnection host port path password db) = Some s ->
  reader (tasks s) = RDeliver i promise ->
  e <> forced_unwind ->
  exists s1,
    read_Deliver_done i promise (Raise e) s = read_Deliver (i - 1) s1 /\
    promises (world s) !! promise = None /\
    promises (world s1) !! promise = Some (Failed e) /\
    signals (world s1) = signals (world s) ++ [(promise, Failed e)] /\
    log (world s1) = log (world s) /\
    m_Queues s1 = m_Queues s /\
    (i <> 1%N ->
     exists next rest,
       ReplyPromises (m_Queues s) = next :: rest /\
       step (EvReadOne (Raise e)) s =
       Some (suspend_reader (RDeliver (i - 1) next)
               (set_ReplyPromises rest s1))).
Proof.
  intros Hrun Hpc He.
  assert (promises (world s) !! promise = None) as Hp.
  { pose proof (own_reachable _ _ _ _ _ _ _ Hrun promise) as (_ & H & _).
    apply H. rewrite Hpc, occ_app. simpl.
    destruct (decide (promise = promise)); [lia|done]. }
  pose proof (safe_reachable _ _ _ _ _ _ _ Hrun) as (Hm & _).
  unfold promises_match in Hm. rewrite Hpc in Hm. destruct Hm as [Hi Hm].
  exists (on_promises (insert promise (Failed e))
            (record_signal promise (Failed e) s)).
  assert (read_Deliver_done i promise (Raise e) s =
          read_Deliver (i - 1)
            (on_promises (insert promise (Failed e))
               (record_signal promise (Failed e) s))) as Hd.
  { unfold read_Deliver_done, set_result. rewrite Hp. by destruct e. }
  split; [done|]. split; [done|]. state_simpl.
  rewrite lookup_insert_eq. do 4 (split; [done|]).
  intros Hi1.
  destruct (ReplyPromises (m_Queues s)) as [|next rest] eqn:Hrp.
  { exfalso. destruct Hm as [k Hk]. unfold size in Hk. simpl in Hk. lia. }
  exists next, rest. split; [done|].
  cbn [step]. unfold ReadLoop_read. rewrite Hpc, Hd.
  unfold read_Deliver. destruct (decide ((i - 1)%N = 0%N)); [lia|].
  state_simpl. by rewrite Hrp.
Qed.

Lemma ReadLoop_Deliver_failure_witness :
  exists s1,
    read_Deliver_done 2 0 (Raise unknown_exception) (after await2_reading) =
    read_Deliver (2 - 1) s1 /\
    promises (world s1) !! 0 = Some (Failed unknown_exception).
Proof.
  destruct (ReadLoop_Deliver_failure "localhost" 6379 "" "" 0 await2_reading
              (after await2_reading) 2 0 unknown_exception
              ltac:(vm_compute; reflexivity) ltac:(vm_compute; reflexivity)
              ltac:(discriminate))
    as (s1 & H1 & _ & H2 & _).
  exists s1. split; assumption.
Defined.

(** *** The Connector and the connection at hand *)

Lemma log_queries_conf msg queries s : conf (log_queries msg queries s) = conf s.
Proof.
  unfold log_queries. revert s.
  induction queries as [|q queries IH]; intros s; simpl; [done|]. by rewrite IH.
Qed.

Lemma transport_api : api_stable transport_inv.
Proof.
  split; unfold transport_inv, Path_IsEmpty; try (intros; assumption).
  - intros s H. unfold Start.
    destruct (m_Started (mem s)); state_simpl;
      destruct (m_Connecting (mem s)); done.
  - intros queries s H. unfold FireAndForgetQueries. state_simpl.
    by rewrite log_queries_mem, log_queries_conf.
  - intros queries s H. unfold GetResultsOfQueries. state_simpl.
    by rewrite log_queries_mem, log_queries_conf.
  - intros s H. unfold Connect_begin. by destruct (connSpawned (tasks s)).
  - intros r s [H1 H2]. unfold Connect_done.
    destruct (connSuspended (tasks s)); [done|].
    destruct r as [|[]]; try done. unfold Path_IsEmpty in *. state_simpl.
    destruct (decide (m_Path (conf s) = "")); state_simpl;
      repeat case_decide; try done; simpl in *; split; congruence.
Qed.

Lemma connected_api : api_stable (fun s => IsConnected s = true).
Proof.
  split; unfold IsConnected; try (intros; assumption).
  - intros s H. unfold Start.
    destruct (m_Started (mem s)); state_simpl;
      destruct (m_Connecting (mem s)); done.
  - intros queries s H. unfold FireAndForgetQueries. state_simpl.
    by rewrite log_queries_mem.
  - intros queries s H. unfold GetResultsOfQueries. state_simpl.
    by rewrite log_queries_mem.
  - intros s H. unfold Connect_begin. by destruct (connSpawned (tasks s)).
  - intros r s H. unfold Connect_done.
    destruct (connSuspended (tasks s)); [done|].
    destruct r as [|[]]; try destruct (Path_IsEmpty _); done.
Qed.

Lemma path_api path : api_stable (fun s => m_Path (conf s) = path).
Proof.
  split; try (intros; assumption).
  - intros s H. unfold Start.
    destruct (m_Started (mem s)); state_simpl;
      destruct (m_Connecting (mem s)); done.
  - intros queries s H. unfold FireAndForgetQueries. state_simpl.
    by rewrite log_queries_conf.
  - intros queries s H. unfold GetResultsOfQueries. state_simpl.
    by rewrite log_queries_conf.
  - intros s H. unfold Connect_begin. by destruct (connSpawned (tasks s)).
  - intros r s H. unfold Connect_done.
    destruct (connSuspended (tasks s)); [done|].
    destruct r as [|[]]; try destruct (Path_IsEmpty _); done.
Qed.

(** Properties the loops do not touch. *)
Ltac frame_stable :=
  first [ split; intros; assumption | intros ? ? ? ? ?; assumption ].

Lemma transport_reachable host port path password db evs s :
  run evs (RedisConnection host port path password db) = Some s ->
  transport_inv s /\ m_Path (conf s) = path.
Proof.
  intros Hrun. split.
  - revert Hrun. apply run_invariant.
    + apply step_stable; [apply transport_api|..]; frame_stable.
    + unfold transport_inv. simpl. by rewrite !andb_false_r.
  - refine (run_invariant (fun s => m_Path (conf s) = path) _ evs _ s _ Hrun);
      [|done].
    apply step_stable; [apply path_api|..]; frame_stable.
Qed.

(** X6: [m_TcpConn] is set exactly when [m_Path] is empty and the
    connection is established, [m_UnixConn] exactly when [m_Path] is not
    empty and the connection is established; so the pointer [ReadOne] and
    [WriteOne] hand to their templates is set exactly when [IsConnected]
    holds.  Once [IsConnected] holds it holds for good: nothing resets
    [m_Connected]. *)
Theorem IsConnected_transport host port path password db evs s :
  run evs (RedisConnection host port path password db) = Some s ->
  m_TcpConn (mem s) = (if decide (path = "") then IsConnected s else false) /\
  m_UnixConn (mem s) = (if decide (path = "") then false else IsConnected s) /\
  ReadOne_conn s = IsConnected s /\ WriteOne_conn s = IsConnected s /\
  forall evs' s', run evs' s = Some s' -> IsConnected s = true ->
                  IsConnected s' = true.
Proof.
  intros Hrun.
  destruct (transport_reachable _ _ _ _ _ _ _ Hrun) as [[H1 H2] Hp].
  unfold ReadOne_conn, WriteOne_conn. rewrite H1, H2.
  unfold Path_IsEmpty, IsConnected in *. rewrite Hp.
  repeat match goal with |- _ /\ _ => split end;
    try (by destruct (decide (path = ""))).
  intros evs' s' Hrun' Hc.
  refine (run_invariant (fun s => m_Connected (mem s) = true) _ evs' s s' Hc Hrun').
  apply step_stable; [apply connected_api|..]; frame_stable.
Qed.

Lemma IsConnected_transport_witness :
  m_TcpConn (mem (after connected)) = true /\
  m_UnixConn (mem (after connected)) = false /\
  IsConnected (after (connected ++ mixed_sent)) = true.
Proof.
  destruct (IsConnected_transport "localhost" 6379 "" "" 0 connected
              (after connected) ltac:(vm_compute; reflexivity))
    as (H1 & H2 & _ & _ & H3).
  split; [rewrite H1; vm_compute; reflexivity|].
  split; [rewrite H2; vm_compute; reflexivity|].
  apply (H3 mixed_sent); vm_compute; reflexivity.
Defined.

(** X11: the Writer does not wait for the Connector.  A query fired
    while the Writer waits with an empty queue and the connection is not
    established is taken up at the next run of the Writer, which calls
    [WriteOne] for it although the pointer [WriteOne] hands to its
    template is not set (lines 265-275 and 388-394; neither loop reads
    [m_Connected]). *)
Theorem WriteLoop_does_not_await_Connect host port path password db evs s
    query :
  run evs (RedisConnection host port path password db) = Some s ->
  writer (tasks s) = WWait ->
  Writes (m_Queues s) = [] ->
  IsConnected s = false ->
  exists s',
    run [EvFireAndForgetQuery query; EvWriterWake (Ret ())] s = Some s' /\
    writer (tasks s') =
      WFireAndForgetQuery (WriteQueueItem.mk (Some query) None None None)
        query /\
    nWriteOne (world s') = S (nWriteOne (world s)) /\
    IsConnected s' = false /\ WriteOne_conn s' = false.
Proof.
  intros Hrun Hw Hws Hc.
  destruct (transport_reachable _ _ _ _ _ _ _ Hrun) as [[H1 H2] _].
  unfold IsConnected in Hc. rewrite Hc, andb_false_r in H1, H2.
  cbn [run step]. unfold WriteLoop_wake, FireAndForgetQuery. state_simpl.
  rewrite Hw. unfold writer_settle, writer_continue, post_write. state_simpl.
  rewrite Hws. simpl. eexists. split; [reflexivity|].
  unfold WriteOne_conn, IsConnected, Path_IsEmpty. state_simpl.
  rewrite H1, H2, Hc. by destruct (decide (m_Path (conf s) = "")).
Qed.

Lemma WriteLoop_does_not_await_Connect_witness :
  exists s',
    run [EvFireAndForgetQuery ["PING"]; EvWriterWake (Ret ())]
        (after just_started) = Some s' /\
    WriteOne_conn s' = false.
Proof.
  destruct (WriteLoop_does_not_await_Connect "localhost" 6379 "" "" 0
              just_started (after just_started) ["PING"]
              ltac:(vm_compute; reflexivity) ltac:(vm_compute; reflexivity)
              ltac:(vm_compute; reflexivity) ltac:(vm_compute; reflexivity))
    as (s' & H1 & _ & _ & _ & H2).
  exists s'. split; assumption.
Defined.

(** *** Work that is queued is signalled *)

Ltac wake_cases :=
  repeat match goal with
         | |- context [match ?x with _ => _ end] =>
             lazymatch x with
             | context [match _ with _ => _ end] => fail
             | _ => destruct x eqn:?
             end
         end.

Ltac wake_tac :=
  unfold write_FireAndForgetQuery_done, write_FireAndForgetQuery,
    write_FireAndForgetQueries_done, write_FireAndForgetQueries,
    write_FireAndForgetQueries_loop, write_GetResultOfQuery_done,
    write_GetResultOfQuery, write_GetResultsOfQueries_done,
    write_GetResultsOfQueries, write_GetResultsOfQueries_loop,
    read_Ignore_done, read_Ignore, read_Deliver_done, read_Deliver,
    read_DeliverBulk_done, read_DeliverBulk, set_result;
  wake_cases; simpl;
  unfold writer_wake, reader_wake, wake_inv in *; state_simpl;
  try tauto.

Lemma WriteLoop_item_wake ws next s :
  writer_wake ws s -> flow_all (writer_wake ws) (WriteLoop_item next s).
Proof. intros H. unfold WriteLoop_item. wake_tac. Qed.

Lemma WriteLoop_while_wake ws s :
  writer_wake ws s -> flow_all wake_inv (WriteLoop_while ws s).
Proof.
  revert s. induction ws as [|next ws IH]; intros s H; simpl.
  - wake_tac.
  - assert (writer_wake ws (set_Writes ws s)) as H1.
    { clear IH. wake_tac. destruct H as [[H1 H2] Hws]. rewrite Hws in H2.
      split; [|done]. split; [done|]. intros _. by apply H2. }
    pose proof (WriteLoop_item_wake ws next _ H1) as Hi.
    destruct (WriteLoop_item next _); simpl in *; auto;
      unfold writer_wake in Hi; tauto.
Qed.

Lemma writer_settle_wake ws fl s' :
  flow_all (writer_wake ws) fl -> writer_settle fl = Some s' -> wake_inv s'.
Proof.
  unfold writer_settle, writer_continue. intros H.
  destruct fl as [s|s|e s|]; simpl in H.
  - intros [= <-]. by destruct H.
  - destruct H as [H Hws].
    pose proof (WriteLoop_while_wake _ s (conj H eq_refl)) as Hw.
    destruct (WriteLoop_while _ s); simpl in Hw; intros [= <-];
      wake_tac.
  - intros [= <-]. wake_tac.
  - done.
Qed.

Lemma WriteLoop_wake_wake r s s' :
  wake_inv s -> WriteLoop_wake r s = Some s' -> wake_inv s'.
Proof.
  intros H. unfold WriteLoop_wake.
  destruct (writer (tasks s)); try (by intros [= <-]).
  destruct r.
  - destruct (m_QueuedWrites (mem s)); [|by intros [= <-]].
    by apply (writer_settle_wake (Writes (m_Queues s)) (Next s)).
  - by apply (writer_settle_wake (Writes (m_Queues s)) (Throw e s)).
Qed.

Lemma WriteLoop_written_wake r s s' :
  wake_inv s -> WriteLoop_written r s = Some s' -> wake_inv s'.
Proof.
  intros H. unfold WriteLoop_written, writer_resume.
  assert (writer_wake (Writes (m_Queues s)) s) as H1 by done.
  destruct (writer (tasks s)); try (by intros [= <-]);
    apply (writer_settle_wake (Writes (m_Queues s))); clear H; wake_tac.
Qed.

Lemma ReadLoop_item_wake q item s :
  reader_wake q s -> flow_all (reader_wake q) (ReadLoop_item item s).
Proof. intros H. unfold ReadLoop_item. wake_tac. Qed.

Lemma ReadLoop_while_wake q s :
  reader_wake q s -> flow_all wake_inv (ReadLoop_while q s).
Proof.
  revert s. induction q as [|item q IH]; intros s H; simpl.
  - wake_tac.
  - assert (reader_wake q (set_FutureResponseActions q s)) as H1.
    { clear IH. wake_tac. destruct H as [[H1 H2] Hq]. rewrite Hq in H1.
      split; [|done]. split; [|done]. intros _. by apply H1. }
    pose proof (ReadLoop_item_wake q item _ H1) as Hi.
    destruct (ReadLoop_item item _); simpl in *; auto;
      unfold reader_wake in Hi; tauto.
Qed.

Lemma reader_settle_wake q fl s' :
  flow_all (reader_wake q) fl -> reader_settle fl = Some s' -> wake_inv s'.
Proof.
  unfold reader_settle, reader_continue. intros H.
  destruct fl as [s|s|e s|]; simpl in H.
  - intros [= <-]. by destruct H.
  - destruct H as [H Hq].
    pose proof (ReadLoop_while_wake _ s (conj H eq_refl)) as Hw.
    destruct (ReadLoop_while _ s); simpl in Hw; intros [= <-];
      wake_tac.
  - intros [= <-]. wake_tac.
  - done.
Qed.

Lemma ReadLoop_wake_wake r s s' :
  wake_inv s -> ReadLoop_wake r s = Some s' -> wake_inv s'.
Proof.
  intros H. unfold ReadLoop_wake.
  destruct (reader (tasks s)); try (by intros [= <-]).
  destruct r.
  - destruct (m_QueuedReads (mem s)); [|by intros [= <-]].
    by apply (reader_settle_wake (FutureResponseActions (m_Queues s)) (Next s)).
  - by apply (reader_settle_wake (FutureResponseActions (m_Queues s))
                (Throw e s)).
Qed.

Lemma ReadLoop_read_wake r s s' :
  wake_inv s -> ReadLoop_read r s = Some s' -> wake_inv s'.
Proof.
  intros H. unfold ReadLoop_read.
  assert (reader_wake (FutureResponseActions (m_Queues s)) s) as H1 by done.
  destruct (reader (tasks s)); try (by intros [= <-]);
    apply (reader_settle_wake (FutureResponseActions (m_Queues s)));
    clear H; wake_tac.
Qed.

Lemma wake_api : api_stable wake_inv.
Proof.
  split; unfold wake_inv.
  - intros s H. unfold Start.
    destruct (m_Started (mem s)); state_simpl;
      destruct (m_Connecting (mem s)); done.
  - intros query s H. unfold FireAndForgetQuery. state_simpl. tauto.
  - intros queries s H. unfold FireAndForgetQueries. state_simpl.
    rewrite log_queries_mem, log_queries_queues. tauto.
  - intros query s H. unfold GetResultOfQuery. state_simpl. tauto.
  - intros queries s H. unfold GetResultsOfQueries. state_simpl.
    rewrite log_queries_mem, log_queries_queues. tauto.
  - intros s H. unfold Connect_begin. by destruct (connSpawned (tasks s)).
  - intros r s H. unfold Connect_done.
    destruct (connSuspended (tasks s)); [done|].
    destruct r as [|[]]; try destruct (Path_IsEmpty _); done.
Qed.

Lemma wake_step ev s s' : wake_inv s -> step ev s = Some s' -> wake_inv s'.
Proof.
  intros H. destruct ev; cbn [step]; try (intros [= <-]).
  - by apply (as_Start _ wake_api).
  - by apply (as_FireAndForgetQuery _ wake_api).
  - by apply (as_FireAndForgetQueries _ wake_api).
  - by apply (as_GetResultOfQuery _ wake_api).
  - by apply (as_GetResultsOfQueries _ wake_api).
  - by apply (as_Connect_begin _ wake_api).
  - by apply (as_Connect_done _ wake_api).
  - by apply WriteLoop_wake_wake.
  - by apply WriteLoop_written_wake.
  - by apply ReadLoop_wake_wake.
  - by apply ReadLoop_read_wake.
Qed.

(** X7: no wake-up is lost.  While [FutureResponseActions] holds an
    entry [m_QueuedReads] is set, and while [Writes] holds an item
    [m_QueuedWrites] is set: a loop clears its flag only after it found
    its queue empty, with no suspension in between (lines 193, 258 and
    267, 375), and whoever enqueues sets the flag in the same run. *)
Theorem queued_work_is_signalled host port path password db evs s :
  run evs (RedisConnection host port path password db) = Some s ->
  (FutureResponseActions (m_Queues s) <> [] -> m_QueuedReads (mem s) = true) /\
  (Writes (m_Queues s) <> [] -> m_QueuedWrites (mem s) = true).
Proof.
  intros Hrun.
  refine (run_invariant wake_inv wake_step evs _ s _ Hrun). by split.
Qed.

Lemma queued_work_is_signalled_witness :
  m_QueuedReads (mem (after mixed_sent)) = true.
Proof.
  destruct (queued_work_is_signalled "localhost" 6379 "" "" 0 mixed_sent
              (after mixed_sent) ltac:(vm_compute; reflexivity)) as [H _].
  apply H. vm_compute. discriminate.
Defined.

(** *** The Writer outlives a failed send *)

Ltac alive_tac :=
  repeat match goal with
         | |- context [match ?x with _ => _ end] => destruct x eqn:?
         end;
  simpl; unfold writer_alive, writer_in_WriteOne; state_simpl; auto.

Lemma write_GetResultsOfQueries_alive next s :
  flow_alive (write_GetResultsOfQueries next s).
Proof.
  unfold write_GetResultsOfQueries, write_GetResultsOfQueries_loop. alive_tac.
Qed.

Lemma write_GetResultOfQuery_alive next s :
  flow_alive (write_GetResultOfQuery next s).
Proof.
  unfold write_GetResultOfQuery.
  destruct (WriteQueueItem.GetResultOfQuery next);
    [alive_tac | apply write_GetResultsOfQueries_alive].
Qed.

Lemma write_FireAndForgetQueries_loop_alive next item i todo s :
  flow_alive (write_FireAndForgetQueries_loop next item i todo s).
Proof.
  unfold write_FireAndForgetQueries_loop.
  destruct todo; [apply write_GetResultOfQuery_alive | alive_tac].
Qed.

Lemma write_FireAndForgetQueries_alive next s :
  flow_alive (write_FireAndForgetQueries next s).
Proof.
  unfold write_FireAndForgetQueries.
  destruct (WriteQueueItem.FireAndForgetQueries next);
    [apply write_FireAndForgetQueries_loop_alive
    | apply write_GetResultOfQuery_alive].
Qed.

Lemma WriteLoop_item_alive next s : flow_alive (WriteLoop_item next s).
Proof.
  unfold WriteLoop_item, write_FireAndForgetQuery.
  destruct (WriteQueueItem.FireAndForgetQuery next);
    [alive_tac | apply write_FireAndForgetQueries_alive].
Qed.

Lemma WriteLoop_while_alive ws s : flow_alive (WriteLoop_while ws s).
Proof.
  revert s. induction ws as [|next ws IH]; intros s; simpl.
  - by left.
  - pose proof (WriteLoop_item_alive next (set_Writes ws s)) as H.
    destruct (WriteLoop_item next _); simpl in H; auto.
Qed.

Lemma writer_settle_alive fl :
  flow_alive fl -> exists s', writer_settle fl = Some s' /\ writer_alive s'.
Proof.
  unfold writer_settle, writer_continue. intros H.
  destruct fl as [s|s|e s|]; simpl in H; try done; [by eexists|].
  pose proof (WriteLoop_while_alive (Writes (m_Queues s)) s) as Hw.
  pose proof (WriteLoop_while_not_Next (Writes (m_Queues s)) s) as Hn.
  destruct (WriteLoop_while _ s) as [s'|s'|e s'|]; simpl in Hw; try done;
    [by eexists | by destruct (Hn _ eq_refl)].
Qed.

(** The result of a [WriteOne] other than a forced unwind, handled. *)
Lemma writer_resume_alive r s :
  own_inv s -> writer_pc_ok (writer (tasks s)) ->
  writer_in_WriteOne s = true -> r <> Raise forced_unwind ->
  exists fl, writer_resume r s = Some fl /\ flow_alive fl.
Proof.
  intros Hown Hpc Hw Hr. unfold writer_resume, writer_in_WriteOne in *.
  destruct (writer (tasks s)) as [| |next item|next item i rest|next item
                                  |next item rest|] eqn:Hw'; try done;
    eexists; (split; [reflexivity|]).
  - unfold write_FireAndForgetQuery_done.
    destruct r as [|[]]; try done. apply write_FireAndForgetQueries_alive.
  - unfold write_FireAndForgetQueries_done. simpl in Hpc.
    destruct (lookup_lt_is_Some_2 item i ltac:(lia)) as [query ->].
    destruct r as [|[]]; try done.
    apply write_FireAndForgetQueries_loop_alive.
  - assert (promises (world s) !! item.2 = None) as Hp.
    { destruct (Hown item.2) as (_ & H & _). apply H.
      rewrite Hw', occ_app. simpl.
      destruct (decide (item.2 = item.2)); [lia|done]. }
    unfold write_GetResultOfQuery_done, set_result. rewrite Hp.
    destruct r as [|[]]; try done. apply write_GetResultsOfQueries_alive.
  - assert (promises (world s) !! item.2 = None) as Hp.
    { destruct (Hown item.2) as (_ & H & _). apply H.
      rewrite Hw', occ_app. simpl.
      destruct (decide (item.2 = item.2)); [lia|done]. }
    unfold write_GetResultsOfQueries_done, set_result. rewrite Hp.
    destruct r as [|[]]; try done.
    unfold write_GetResultsOfQueries_loop. alive_tac.
Qed.

(** X9: only the forced unwind ends the Writer in a [WriteOne].  Whatever
    else the [WriteOne] it is suspended in ends with, the run has no
    undefined behaviour and leaves the Writer in the next [WriteOne] or
    back in [Wait]: every handler of lines 276-288, 308-320, 336-341 and
    361-366 ends in [continue], and the [set_exception] in two of them
    finds a promise without result.  On a forced unwind [WriteLoop]
    ends. *)
Theorem WriteLoop_survives_send_failures host port path password db evs s r :
  run evs (RedisConnection host port path password db) = Some s ->
  writer_in_WriteOne s = true ->
  exists s', step (EvWriteOne r) s = Some s' /\
    match r with
    | Raise forced_unwind => writer (tasks s') = WTerminated forced_unwind
    | _ => writer (tasks s') = WWait \/ writer_in_WriteOne s' = true
    end.
Proof.
  intros Hrun Hw.
  pose proof (own_reachable _ _ _ _ _ _ _ Hrun) as Hown.
  pose proof (safe_reachable _ _ _ _ _ _ _ Hrun) as (_ & _ & _ & Hpc).
  simpl. unfold WriteLoop_written.
  assert (r <> Raise forced_unwind ->
          exists s', match writer_resume r s with
                     | Some fl => writer_settle fl
                     | None => Some s
                     end = Some s' /\ writer_alive s') as Halive.
  { intros Hr.
    destruct (writer_resume_alive r s Hown Hpc Hw Hr) as (fl & -> & Hfl).
    by apply writer_settle_alive. }
  destruct r as [a|[]]; try (by apply Halive).
  unfold writer_resume, writer_in_WriteOne in *.
  destruct (writer (tasks s)); try done; by eexists.
Qed.

Lemma WriteLoop_survives_send_failures_witness :
  exists s',
    step (EvWriteOne (Raise unknown_exception)) (after await1_send) = Some s' /\
    (writer (tasks s') = WWait \/ writer_in_WriteOne s' = true).
Proof.
  destruct (WriteLoop_survives_send_failures "localhost" 6379 "" "" 0
              await1_send (after await1_send) (Raise unknown_exception)
              ltac:(vm_compute; reflexivity) ltac:(vm_compute; reflexivity))
    as (s' & Hstep & Halive).
  exists s'. split; assumption.
Defined.

(** *** No reply is read that was not asked for *)

Ltac covered_tac :=
  unfold set_result in *;
  repeat match goal with
         | |- context [promises (world ?s) !! ?p] =>
             destruct (promises (world s) !! p)
         end;
  unfold flow_writer_covered, flow_reader_covered, covered_inv,
    reader_covered, reads_covered, size in *;
  simpl; state_simpl;
  repeat match goal with
         | |- context [append_or_extend ?n ?a ?q] =>
             pose proof (total_append_or_extend n a q);
             generalize dependent (append_or_extend n a q); intros
         end;
  rewrite ?total_app; simpl; destruct_and?;
  repeat match goal with |- _ /\ _ => split end; try done; try lia.

(** The Writer. *)

Lemma write_GetResultsOfQueries_loop_covered next
    (item : list (list string) * nat) todo s :
  length todo <= length item.1 ->
  reads_covered (N.of_nat (length item.1 - length todo))
    (due (reader (tasks s))) s ->
  flow_writer_covered (write_GetResultsOfQueries_loop next item todo s).
Proof.
  intros Hl H. unfold write_GetResultsOfQueries_loop.
  destruct todo; simpl in *; covered_tac.
Qed.

Lemma write_GetResultsOfQueries_done_covered next
    (item : list (list string) * nat) rest r s :
  length rest < length item.1 ->
  reads_covered (N.of_nat (length item.1 - length rest))
    (due (reader (tasks s))) s ->
  flow_writer_covered (write_GetResultsOfQueries_done next item rest r s).
Proof.
  intros Hl H. unfold write_GetResultsOfQueries_done.
  destruct r as [|[]];
    try (apply write_GetResultsOfQueries_loop_covered; [lia|done]);
    covered_tac.
Qed.

Lemma write_GetResultsOfQueries_covered next s :
  reads_covered 0 (due (reader (tasks s))) s ->
  flow_writer_covered (write_GetResultsOfQueries next s).
Proof.
  intros H. unfold write_GetResultsOfQueries.
  destruct (WriteQueueItem.GetResultsOfQueries next) as [item|]; [|done].
  apply write_GetResultsOfQueries_loop_covered; [done|].
  by rewrite Nat.sub_diag.
Qed.

Lemma write_GetResultOfQuery_done_covered next item r s :
  reads_covered 1 (due (reader (tasks s))) s ->
  flow_writer_covered (write_GetResultOfQuery_done next item r s).
Proof.
  intros H. unfold write_GetResultOfQuery_done.
  destruct r as [|[]]; try apply write_GetResultsOfQueries_covered;
    covered_tac.
Qed.

Lemma write_GetResultOfQuery_covered next s :
  reads_covered 0 (due (reader (tasks s))) s ->
  flow_writer_covered (write_GetResultOfQuery next s).
Proof.
  intros H. unfold write_GetResultOfQuery.
  destruct (WriteQueueItem.GetResultOfQuery next);
    [covered_tac | by apply write_GetResultsOfQueries_covered].
Qed.

Lemma write_FireAndForgetQueries_loop_covered next
    (item : list (list string)) i todo s :
  i + length todo = length item ->
  reads_covered (N.of_nat i) (due (reader (tasks s))) s ->
  flow_writer_covered (write_FireAndForgetQueries_loop next item i todo s).
Proof.
  intros Hl H. unfold write_FireAndForgetQueries_loop.
  destruct todo; simpl in *;
    [apply write_GetResultOfQuery_covered|]; covered_tac.
Qed.

Lemma write_FireAndForgetQueries_done_covered next
    (item : list (list string)) i rest r s :
  i + S (length rest) = length item ->
  reads_covered (N.of_nat (S i)) (due (reader (tasks s))) s ->
  flow_writer_covered (write_FireAndForgetQueries_done next item i rest r s).
Proof.
  intros Hl H. unfold write_FireAndForgetQueries_done.
  destruct r as [|[]];
    try (apply write_FireAndForgetQueries_loop_covered; [simpl; lia|done]);
    try destruct (item !! i); covered_tac.
Qed.

Lemma write_FireAndForgetQueries_covered next s :
  reads_covered 0 (due (reader (tasks s))) s ->
  flow_writer_covered (write_FireAndForgetQueries next s).
Proof.
  intros H. unfold write_FireAndForgetQueries.
  destruct (WriteQueueItem.FireAndForgetQueries next);
    [by apply write_FireAndForgetQueries_loop_covered
    | by apply write_GetResultOfQuery_covered].
Qed.

Lemma write_FireAndForgetQuery_done_covered next item r s :
  reads_covered 1 (due (reader (tasks s))) s ->
  flow_writer_covered (write_FireAndForgetQuery_done next item r s).
Proof.
  intros H. unfold write_FireAndForgetQuery_done.
  destruct r as [|[]]; try apply write_FireAndForgetQueries_covered;
    covered_tac.
Qed.

Lemma WriteLoop_item_covered next s :
  reads_covered 0 (due (reader (tasks s))) s ->
  flow_writer_covered (WriteLoop_item next s).
Proof.
  intros H. unfold WriteLoop_item, write_FireAndForgetQuery.
  destruct (WriteQueueItem.FireAndForgetQuery next);
    [covered_tac | by apply write_FireAndForgetQueries_covered].
Qed.

Lemma WriteLoop_while_covered ws s :
  reads_covered 0 (due (reader (tasks s))) s ->
  flow_writer_covered (WriteLoop_while ws s).
Proof.
  revert s. induction ws as [|next ws IH]; intros s H; simpl.
  - covered_tac.
  - pose proof (WriteLoop_item_covered next (set_Writes ws s) H) as Hi.
    destruct (WriteLoop_item next _); simpl in *; auto.
Qed.

Lemma writer_settle_covered fl s' :
  flow_writer_covered fl -> writer_settle fl = Some s' -> covered_inv s'.
Proof.
  unfold writer_settle, writer_continue. intros H.
  destruct fl as [s|s|e s|]; simpl in H.
  - by intros [= <-].
  - pose proof (WriteLoop_while_covered (Writes (m_Queues s)) s H) as Hw.
    pose proof (WriteLoop_while_not_Next (Writes (m_Queues s)) s) as Hn.
    destruct (WriteLoop_while _ s); simpl in Hw; intros [= <-];
      [done | by destruct (Hn _ eq_refl) | covered_tac].
  - intros [= <-]. covered_tac.
  - done.
Qed.

Lemma WriteLoop_wake_covered r s s' :
  covered_inv s -> WriteLoop_wake r s = Some s' -> covered_inv s'.
Proof.
  intros H. unfold WriteLoop_wake.
  destruct (writer (tasks s)) eqn:Hpc; try (by intros [= <-]).
  assert (reads_covered 0 (due (reader (tasks s))) s) as H0.
  { destruct H as [H _]. by rewrite Hpc in H. }
  destruct r.
  - destruct (m_QueuedWrites (mem s)); [|by intros [= <-]].
    by apply (writer_settle_covered (Next s)).
  - by apply (writer_settle_covered (Throw e s)).
Qed.

Lemma WriteLoop_written_covered r s s' :
  covered_inv s -> WriteLoop_written r s = Some s' -> covered_inv s'.
Proof.
  intros H. unfold WriteLoop_written, writer_resume.
  destruct (writer (tasks s)) eqn:Hw; try (by intros [= <-]);
    destruct H as [H Hpc]; rewrite Hw in H, Hpc;
    apply writer_settle_covered; simpl in *.
  - by apply write_FireAndForgetQuery_done_covered.
  - by apply write_FireAndForgetQueries_done_covered.
  - by apply write_GetResultOfQuery_done_covered.
  - by apply write_GetResultsOfQueries_done_covered.
Qed.

(** The Reader. *)

Lemma reader_covered_drop i s : reader_covered i s -> reader_covered 0 s.
Proof. intros H. covered_tac. Qed.

Lemma read_Ignore_covered i s :
  reader_covered i s -> flow_reader_covered (read_Ignore i s).
Proof.
  intros H. unfold read_Ignore. destruct (decide (i = 0%N)); covered_tac.
Qed.

Lemma read_Ignore_done_covered i r s :
  reader_covered (i - 1) s -> flow_reader_covered (read_Ignore_done i r s).
Proof.
  intros H. unfold read_Ignore_done.
  destruct r as [|[]]; auto using read_Ignore_covered; covered_tac.
Qed.

Lemma read_Deliver_covered i s :
  reader_covered i s -> flow_reader_covered (read_Deliver i s).
Proof.
  intros H. unfold read_Deliver. destruct (decide (i = 0%N)); [covered_tac|].
  destruct (ReplyPromises (m_Queues s)); covered_tac.
Qed.

Lemma set_result_covered p c i s :
  reader_covered i s ->
  match set_result p c s with
  | Satisfied s' | AlreadySatisfied s' => reader_covered i s'
  end.
Proof. intros H. covered_tac. Qed.

Lemma read_Deliver_done_covered i promise r s :
  reader_covered (i - 1) s ->
  flow_reader_covered (read_Deliver_done i promise r s).
Proof.
  intros H. unfold read_Deliver_done.
  destruct r as [|[]]; [| covered_tac | |].
  all: match goal with
       | |- context [set_result ?p ?c ?s] =>
           pose proof (set_result_covered p c _ s H);
           destruct (set_result p c s); simpl;
           eauto using read_Deliver_covered, reader_covered_drop
       end.
Qed.

Lemma read_DeliverBulk_covered i promise replies s :
  reader_covered i s ->
  flow_reader_covered (read_DeliverBulk i promise replies s).
Proof.
  intros H. unfold read_DeliverBulk. destruct (decide (i = 0%N)); covered_tac.
Qed.

Lemma read_DeliverBulk_done_covered i promise replies r s :
  reader_covered (i - 1) s ->
  flow_reader_covered (read_DeliverBulk_done i promise replies r s).
Proof.
  intros H. unfold read_DeliverBulk_done.
  destruct r as [|[]];
    [by apply read_DeliverBulk_covered | covered_tac | |].
  all: match goal with
       | |- context [set_result ?p ?c ?s] =>
           pose proof (set_result_covered p c _ s H);
           destruct (set_result p c s); simpl;
           eauto using read_DeliverBulk_covered, reader_covered_drop
       end.
Qed.

Lemma ReadLoop_item_covered item s :
  reader_covered (Amount item) s -> flow_reader_covered (ReadLoop_item item s).
Proof.
  intros H. unfold ReadLoop_item.
  destruct (Action item);
    auto using read_Ignore_covered, read_Deliver_covered.
  destruct (RepliesPromises (m_Queues s)); [done|].
  apply read_DeliverBulk_covered. covered_tac.
Qed.

Lemma ReadLoop_while_covered q s :
  FutureResponseActions (m_Queues s) = q -> reader_covered 0 s ->
  flow_reader_covered (ReadLoop_while q s).
Proof.
  revert s. induction q as [|item q IH]; intros s Hq H; simpl.
  - covered_tac.
  - assert (reader_covered (Amount item) (set_FutureResponseActions q s))
      as H1.
    { clear IH. unfold reader_covered, reads_covered in *. rewrite Hq in H.
      simpl in H. state_simpl. destruct H. split; [lia|done]. }
    pose proof (ReadLoop_item_covered item _ H1) as Hi.
    pose proof (ReadLoop_item_stable _ (FutureResponseActions_reader_stable q)
                  item (set_FutureResponseActions q s) eq_refl) as Hf.
    destruct (ReadLoop_item item _) as [s'|s'|e s'|]; simpl in *; auto.
Qed.

Lemma reader_settle_covered fl s' :
  flow_reader_covered fl -> reader_settle fl = Some s' -> covered_inv s'.
Proof.
  unfold reader_settle, reader_continue. intros H.
  destruct fl as [s|s|e s|]; simpl in H.
  - by intros [= <-].
  - pose proof (ReadLoop_while_covered _ s eq_refl H) as Hw.
    pose proof (ReadLoop_while_not_Next (FutureResponseActions (m_Queues s)) s)
      as Hn.
    destruct (ReadLoop_while _ s); simpl in Hw; intros [= <-];
      [done | by destruct (Hn _ eq_refl) | covered_tac].
  - intros [= <-]. covered_tac.
  - done.
Qed.

Lemma ReadLoop_wake_covered r s s' :
  covered_inv s -> ReadLoop_wake r s = Some s' -> covered_inv s'.
Proof.
  intros H. unfold ReadLoop_wake.
  destruct (reader (tasks s)) eqn:Hpc; try (by intros [= <-]).
  assert (reader_covered 0 s) as H0.
  { destruct H as [H ?]. by rewrite Hpc in H. }
  destruct r.
  - destruct (m_QueuedReads (mem s)); [|by intros [= <-]].
    by apply (reader_settle_covered (Next s)).
  - by apply (reader_settle_covered (Throw e s)).
Qed.

Lemma ReadLoop_read_covered r s s' :
  covered_inv s -> ReadLoop_read r s = Some s' -> covered_inv s'.
Proof.
  intros H. unfold ReadLoop_read.
  destruct (reader (tasks s)) eqn:Hpc; try (by intros [= <-]);
    destruct H as [H Hok]; rewrite Hpc in H; simpl in H;
    apply reader_settle_covered.
  - by apply read_Ignore_done_covered.
  - by apply read_Deliver_done_covered.
  - by apply read_DeliverBulk_done_covered.
Qed.

Lemma covered_api : api_stable covered_inv.
Proof.
  split; unfold covered_inv, reads_covered.
  - intros s H. unfold Start.
    destruct (m_Started (mem s)) eqn:Hs; state_simpl;
      destruct (m_Connecting (mem s)); try done;
      simpl; destruct H; (split; [lia|done]).
  - intros query s H. unfold FireAndForgetQuery. by state_simpl.
  - intros queries s H. unfold FireAndForgetQueries. state_simpl.
    pose proof (log_queries_world "Firing and forgetting query:" queries s)
      as (_ & _ & _ & _ & _ & _ & _ & Hr & Hw & _).
    by rewrite log_queries_queues, log_queries_tasks, Hr, Hw.
  - intros query s H. unfold GetResultOfQuery. by state_simpl.
  - intros queries s H. unfold GetResultsOfQueries. state_simpl.
    pose proof (log_queries_world "Executing query:" queries s)
      as (_ & _ & _ & _ & _ & _ & _ & Hr & Hw & _).
    by rewrite log_queries_queues, log_queries_tasks, Hr, Hw.
  - intros s H. unfold Connect_begin. by destruct (connSpawned (tasks s)).
  - intros r s H. unfold Connect_done.
    destruct (connSuspended (tasks s)); [done|].
    destruct r as [|[]]; try destruct (Path_IsEmpty _); done.
Qed.

Lemma covered_step ev s s' :
  covered_inv s -> step ev s = Some s' -> covered_inv s'.
Proof.
  intros H. destruct ev; cbn [step]; try (intros [= <-]).
  - by apply (as_Start _ covered_api).
  - by apply (as_FireAndForgetQuery _ covered_api).
  - by apply (as_FireAndForgetQueries _ covered_api).
  - by apply (as_GetResultOfQuery _ covered_api).
  - by apply (as_GetResultsOfQueries _ covered_api).
  - by apply (as_Connect_begin _ covered_api).
  - by apply (as_Connect_done _ covered_api).
  - by apply WriteLoop_wake_covered.
  - by apply WriteLoop_written_covered.
  - by apply ReadLoop_wake_covered.
  - by apply ReadLoop_read_covered.
Qed.

(** X8: the Reader never reads ahead of the Writer.  The calls of
    [ReadOne] begun, together with the replies the entries of
    [FutureResponseActions] still stand for, never exceed the calls of
    [WriteOne] begun: an entry is booked only after the sends it stands
    for have returned, and a wrapped amount only lowers what is booked. *)
Theorem reads_within_writes host port path password db evs s :
  run evs (RedisConnection host port path password db) = Some s ->
  (N.of_nat (nReadOne (world s)) +
   total (FutureResponseActions (m_Queues s))
   <= N.of_nat (nWriteOne (world s)))%N.
Proof.
  intros Hrun.
  assert (covered_inv s) as [H _].
  { refine (run_invariant covered_inv covered_step evs _ s _ Hrun).
    split; [|done]. unfold reads_covered. simpl. lia. }
  unfold reads_covered in H. lia.
Qed.

Lemma reads_within_writes_witness :
  nReadOne (world (after bulk3_reading)) = 1 /\
  total (FutureResponseActions (m_Queues (after bulk3_reading))) = 0%N /\
  nWriteOne (world (after bulk3_reading)) = 3.
Proof.
  pose proof (reads_within_writes "localhost" 6379 "" "" 0 bulk3_reading
                (after bulk3_reading) ltac:(vm_compute; reflexivity)) as H.
  repeat split; vm_compute; reflexivity.
Defined.
